(** * cu_array: a shallow embedding of [cu_array.h]

    The header implements a growable array of fixed-size items stored in
    one heap block, and an in-place quicksort over it.  The embedding
    keeps the byte level of the C code: the block is a list of bytes,
    pointers into it are byte offsets, [size_t] arithmetic wraps modulo
    [2^64], and every library call that would touch memory outside the
    block (or through a null pointer) ends the run with a [Fault].  A
    call during which [realloc] frees the block without giving a new one
    ends with [Released]. *)

From Stdlib Require Import ZArith List Lia Bool.
From Stdlib Require Import Permutation.
From Stdlib Require Import Strings.Byte.
Import ListNotations.
Local Open Scope Z_scope.

(** ** Machine integers *)

(** [size_t] of an LP64 target. *)
Definition SIZE_BITS : Z := 64.
Definition SIZE_MAX : Z := 2 ^ SIZE_BITS - 1.

(** Unsigned wrap-around of [size_t] arithmetic. *)
Definition wrap (z : Z) : Z := z mod 2 ^ SIZE_BITS.

(** [#define CU_ARRAY_DEFAULT_SIZE (32u)] *)
Definition CU_ARRAY_DEFAULT_SIZE : Z := 32.
(** [#define CU_ARRAY_MAX_ITEM_SIZE (128u)] *)
Definition CU_ARRAY_MAX_ITEM_SIZE : Z := 128.

(** ** Memory *)

(** [CU_UNIT] is [unsigned char]; a block is the list of its bytes. *)
Definition bytes : Type := list byte.

Definition blen (m : bytes) : Z := Z.of_nat (List.length m).

(** Ways in which a call leaves defined behaviour. *)
Inductive fault : Type :=
| NullPointer      (* a null pointer handed to memcpy / memmove *)
| OutOfBounds      (* an access outside the block it points into *)
| Overlap          (* memcpy between overlapping regions *)
| ScratchOverflow. (* more than CU_ARRAY_MAX_ITEM_SIZE bytes into swap_buffer *)

(** How a call ends.  [Released x]: the call returned [x], and on the
    way [realloc] freed the block and returned null.  The struct in [x]
    has every field as it was before the call, but the block behind its
    [data] pointer is gone: the pointer dangles and the stored items are
    lost. *)
Inductive outcome (A : Type) : Type :=
| Ret (x : A)
| Fault (f : fault)
| OutOfFuel
| Released (x : A).
Arguments Ret {A} x.
Arguments Fault {A} f.
Arguments OutOfFuel {A}.
Arguments Released {A} x.

(** Sequencing.  What runs after a call that released the block keeps
    the mark. *)
Definition bind {A B : Type} (r : outcome A) (k : A -> outcome B) : outcome B :=
  match r with
  | Ret x => k x
  | Fault f => Fault f
  | OutOfFuel => OutOfFuel
  | Released x =>
    match k x with
    | Ret y => Released y
    | other => other
    end
  end.

Notation "x <- e ;; k" := (bind e (fun x => k))
  (at level 61, e at next level, right associativity).

(** The first [n] bytes of a block, and the block without them. *)
Definition take (n : Z) (m : bytes) : bytes := firstn (Z.to_nat n) m.
Definition drop (n : Z) (m : bytes) : bytes := skipn (Z.to_nat n) m.

(** Reading [n] bytes at offset [off] of a block. *)
Definition load (m : bytes) (off n : Z) : outcome bytes :=
  if (0 <=? off) && (0 <=? n) && (off + n <=? blen m)
  then Ret (take n (drop off m))
  else Fault OutOfBounds.

(** Overwriting the bytes at offset [off] of a block with [v]. *)
Definition store (m : bytes) (off : Z) (v : bytes) : outcome bytes :=
  if (0 <=? off) && (off + blen v <=? blen m)
  then Ret (take off m ++ v ++ drop (off + blen v) m)
  else Fault OutOfBounds.

(** [cu_memmove(dst, src, n)] with both pointers into the block [m]
    (null pointers are [None]); the regions may overlap.  A null pointer
    is not a valid argument of the string functions, whatever the size
    (C11 7.24.1). *)
Definition cu_memmove (m : bytes) (dst src : option Z) (n : Z) : outcome bytes :=
  match dst, src with
  | Some d, Some s => v <- load m s n ;; store m d v
  | _, _ => Fault NullPointer
  end.

(** [cu_memcpy(dst, src, n)] from a caller's object into the block: the
    source pointer is modelled by the bytes readable from it onwards. *)
Definition cu_memcpy_from (m : bytes) (dst : option Z) (src : option bytes) (n : Z)
  : outcome bytes :=
  match dst, src with
  | Some d, Some s => v <- load s 0 n ;; store m d v
  | _, _ => Fault NullPointer
  end.

(** [cu_memcpy(dst, src, n)] between two regions of the block, which
    must not overlap. *)
Definition cu_memcpy_within (m : bytes) (d s n : Z) : outcome bytes :=
  if (d + n <=? s) || (s + n <=? d)
  then v <- load m s n ;; store m d v
  else Fault Overlap.

(** The heap as one call sees it: whether a request of a given size is
    granted, what the fresh bytes happen to hold, and whether [realloc]
    with a size of 0 that gives no new block frees the old one (the C
    standard leaves that to the implementation; glibc frees). *)
Record allocator : Type := mk_allocator {
  grants : Z -> bool;
  junk : nat -> byte;
  frees_on_zero : bool
}.

Definition fresh (al : allocator) (from n : nat) : bytes :=
  map (junk al) (seq from n).

Definition cu_malloc (al : allocator) (n : Z) : option bytes :=
  if grants al n then Some (fresh al 0 (Z.to_nat n)) else None.

(** What [realloc] did: it returned a new block ([Moved]), it returned
    null and left the old block alone ([Refused]), or it returned null
    after freeing the old block ([Freed]). *)
Inductive reallocation : Type :=
| Moved (tmp : bytes)
| Refused
| Freed.

(** A granted [realloc] keeps the old bytes up to the smaller of the two
    sizes.  One that returns null leaves the old block alone when the
    size is not 0; for a size of 0 it has freed the old block on a heap
    that [frees_on_zero]. *)
Definition cu_realloc (al : allocator) (old : bytes) (n : Z) : reallocation :=
  if grants al n
  then Moved (take n old ++ fresh al (List.length old) (Z.to_nat n - List.length old))
  else if (n =? 0) && frees_on_zero al then Freed
  else Refused.

(** ** The array *)

(** [typedef struct cu_array_s { CU_UNIT *data; size_t item_size;
    size_t length; size_t capacity; } cu_array_t;]
    [data] is the block it points to, [None] for a null pointer. *)
Record cu_array_t : Type := mk_array {
  data : option bytes;
  item_size : Z;
  length : Z;
  capacity : Z
}.

(** [(cu_array_t){0}] *)
Definition zero_array : cu_array_t := mk_array None 0 0 0.

(** What a call leaves behind: its [int] result and the struct behind
    [arr] ([None] when [arr] itself is null). *)
Definition result : Type := (Z * option cu_array_t)%type.

(** [__cu_array_grow], built with [CU_GROWTH_RATE_SPACE] (the default).
    [if (tmp == NULL) return 1;] leaves [arr->data] as it was, whether or
    not [realloc] has freed the block behind it. *)
Definition __cu_array_grow (al : allocator) (arr : option cu_array_t) : outcome result :=
  match arr with
  | None => Ret (1, None)
  | Some a =>
    match data a with
    | None => Ret (1, arr)
    | Some m =>
      if capacity a =? 0 then Ret (1, arr) else
      let new_capacity := wrap (capacity a * 2) in
      if new_capacity <=? length a then Ret (1, arr) else
      match cu_realloc al m (wrap (item_size a * new_capacity)) with
      | Refused => Ret (1, arr)
      | Freed => Released (1, arr)
      | Moved tmp =>
        Ret (0, Some (mk_array (Some tmp) (item_size a) (length a) new_capacity))
      end
    end
  end.

Definition cu_array_init (al : allocator) (arr : option cu_array_t) (isz : Z) : result :=
  match arr with
  | None => (1, None)
  | Some a =>
    match data a with
    | Some _ => (1, arr)
    | None =>
      if negb (capacity a =? 0) then (1, arr) else
      match cu_malloc al (wrap (isz * CU_ARRAY_DEFAULT_SIZE)) with
      | None => (1, Some (mk_array None isz 0 0))
      | Some m => (0, Some (mk_array (Some m) isz 0 CU_ARRAY_DEFAULT_SIZE))
      end
    end
  end.

Definition cu_array_deinit (arr : option cu_array_t) : result :=
  match arr with
  | None => (1, None)
  | Some a =>
    match data a with
    | None => (1, arr)
    | Some _ =>
      if capacity a =? 0 then (1, arr) else (0, Some zero_array)
    end
  end.

(** [cu_array_at]: the returned pointer as an offset into [arr->data]. *)
Definition cu_array_at (arr : option cu_array_t) (pos : Z) : option Z :=
  match arr with
  | None => None
  | Some a =>
    match data a with
    | None => None
    | Some _ =>
      if (capacity a =? 0) || (length a <=? pos) then None
      else Some (wrap (item_size a * pos))
    end
  end.

Definition cu_array_append (al : allocator) (arr : option cu_array_t)
    (item : option bytes) : outcome result :=
  match item, arr with
  | None, _ => Ret (1, arr)
  | _, None => Ret (1, None)
  | Some _, Some a =>
    match data a with
    | None => Ret (1, arr)
    | Some _ =>
      if capacity a =? 0 then Ret (1, arr) else
      grown <- (if capacity a <=? length a then __cu_array_grow al arr
                else Ret (0, arr)) ;;
      match grown with
      | (0, Some a1) =>
        match data a1 with
        | Some m =>
          m' <- cu_memcpy_from m (Some (wrap (item_size a1 * length a1))) item
                               (item_size a1) ;;
          Ret (0, Some (mk_array (Some m') (item_size a1)
                                 (wrap (length a1 + 1)) (capacity a1)))
        | None => Fault NullPointer
        end
      | (res, arr1) => Ret (res, arr1)
      end
    end
  end.

Definition cu_array_reserve (al : allocator) (arr : option cu_array_t)
    (new_capacity : Z) : outcome result :=
  match arr with
  | None => Ret (1, None)
  | Some a =>
    match data a with
    | None => Ret (1, arr)
    | Some m =>
      if capacity a =? 0 then Ret (1, arr) else
      if new_capacity <=? capacity a then Ret (0, arr) else
      match cu_realloc al m (wrap (item_size a * new_capacity)) with
      | Refused => Ret (1, arr)
      | Freed => Released (1, arr)
      | Moved tmp =>
        Ret (0, Some (mk_array (Some tmp) (item_size a) (length a) new_capacity))
      end
    end
  end.

Definition cu_array_extend (al : allocator) (arr : option cu_array_t)
    (items : option bytes) (num_items : Z) : outcome result :=
  match items, arr with
  | None, _ => Ret (1, arr)
  | _, None => Ret (1, None)
  | Some _, Some a =>
    match data a with
    | None => Ret (1, arr)
    | Some _ =>
      if capacity a =? 0 then Ret (1, arr) else
      reserved <- cu_array_reserve al arr (wrap (length a + num_items)) ;;
      match reserved with
      | (0, Some a1) =>
        match data a1 with
        | Some m =>
          m' <- cu_memcpy_from m (Some (wrap (item_size a1 * length a1))) items
                               (wrap (num_items * item_size a1)) ;;
          Ret (0, Some (mk_array (Some m') (item_size a1)
                                 (wrap (length a1 + num_items)) (capacity a1)))
        | None => Fault NullPointer
        end
      | (_, arr1) => Ret (1, arr1)
      end
    end
  end.

Definition cu_array_insert (al : allocator) (arr : option cu_array_t)
    (item : option bytes) (pos : Z) : outcome result :=
  match item, arr with
  | None, _ => Ret (1, arr)
  | _, None => Ret (1, None)
  | Some _, Some a =>
    match data a with
    | None => Ret (1, arr)
    | Some _ =>
      if (capacity a =? 0) || (length a <? pos) then Ret (1, arr) else
      grown <- (if capacity a <=? length a then __cu_array_grow al arr
                else Ret (0, arr)) ;;
      match grown with
      | (0, Some a1) =>
        match data a1 with
        | Some m =>
          m1 <- cu_memmove m (cu_array_at (Some a1) (wrap (pos + 1)))
                             (cu_array_at (Some a1) pos)
                             (wrap (wrap (length a1 - pos) * item_size a1)) ;;
          m2 <- cu_memcpy_from m1 (cu_array_at (Some a1) pos) item (item_size a1) ;;
          Ret (0, Some (mk_array (Some m2) (item_size a1)
                                 (wrap (length a1 + 1)) (capacity a1)))
        | None => Fault NullPointer
        end
      | (res, arr1) => Ret (res, arr1)
      end
    end
  end.

Definition cu_array_remove_at (arr : option cu_array_t) (pos : Z) : outcome result :=
  match arr with
  | None => Ret (1, None)
  | Some a =>
    match data a with
    | None => Ret (1, arr)
    | Some m =>
      if (capacity a =? 0) || (length a <=? pos) then Ret (1, arr) else
      m' <- cu_memmove m (cu_array_at arr pos) (cu_array_at arr (wrap (pos + 1)))
                         (wrap (wrap (length a - pos) * item_size a)) ;;
      Ret (0, Some (mk_array (Some m') (item_size a) (wrap (length a - 1)) (capacity a)))
    end
  end.

Definition cu_array_clear (arr : option cu_array_t) : result :=
  match arr with
  | None => (1, None)
  | Some a => (0, Some (mk_array (data a) (item_size a) 0 (capacity a)))
  end.

(** ** Quicksort *)

Section Sort.

(** The [compare] argument, a function of two [void] pointers: it reads
    one item behind each and returns an [int] whose sign orders them. *)
Variable compare : bytes -> bytes -> Z.

(** [compare(p, q)] for two pointers into the block. *)
Definition compare_at (m : bytes) (isz p q : Z) : outcome Z :=
  x <- load m p isz ;;
  y <- load m q isz ;;
  Ret (compare x y).

(** [while (compare(data + item_size * i, pivot) < 0) i++;] *)
Fixpoint scan_up (fuel : nat) (m : bytes) (dat isz pivot i : Z) : outcome Z :=
  match fuel with
  | O => OutOfFuel
  | S fuel' =>
    c <- compare_at m isz (dat + wrap (isz * i)) pivot ;;
    if c <? 0 then scan_up fuel' m dat isz pivot (wrap (i + 1)) else Ret i
  end.

(** [while (compare(pivot, data + item_size * j) < 0) j--;] *)
Fixpoint scan_down (fuel : nat) (m : bytes) (dat isz pivot j : Z) : outcome Z :=
  match fuel with
  | O => OutOfFuel
  | S fuel' =>
    c <- compare_at m isz pivot (dat + wrap (isz * j)) ;;
    if c <? 0 then scan_down fuel' m dat isz pivot (wrap (j - 1)) else Ret j
  end.

(** The three [cu_memcpy] calls that exchange the items behind [p] and
    [q] through the static [swap_buffer].  The buffer is written before
    it is read in every exchange, so only its size is kept. *)
Definition swap_items (m : bytes) (isz p q : Z) : outcome bytes :=
  if CU_ARRAY_MAX_ITEM_SIZE <? isz then Fault ScratchOverflow else
  swap_buffer <- load m p isz ;;
  m1 <- cu_memcpy_within m p q isz ;;
  store m1 q swap_buffer.

(** The [for (i = 0, j = len - 1;; i++, j--)] loop; [pivot] is the
    pointer computed before the loop, not the item it pointed to. *)
Fixpoint partition (fuel scan_fuel : nat) (m : bytes) (dat isz pivot i j : Z)
  : outcome (bytes * Z) :=
  match fuel with
  | O => OutOfFuel
  | S fuel' =>
    i1 <- scan_up scan_fuel m dat isz pivot i ;;
    j1 <- scan_down scan_fuel m dat isz pivot j ;;
    if j1 <=? i1 then Ret (m, i1) else
    m' <- swap_items m isz (dat + wrap (isz * i1)) (dat + wrap (isz * j1)) ;;
    partition fuel' scan_fuel m' dat isz pivot (wrap (i1 + 1)) (wrap (j1 - 1))
  end.

(** [__cu_array_qsort_internal(data, item_size, len, compare)], with
    [dat] the offset of [data] in the block. *)
Fixpoint __cu_array_qsort_internal (fuel : nat) (m : bytes) (dat isz len : Z)
  : outcome bytes :=
  match fuel with
  | O => OutOfFuel
  | S fuel' =>
    if len <? 2 then Ret m else
    let pivot := dat + wrap (isz * (len / 2)) in
    r <- partition fuel' fuel' m dat isz pivot 0 (wrap (len - 1)) ;;
    let (m1, i) := r in
    m2 <- __cu_array_qsort_internal fuel' m1 dat isz i ;;
    __cu_array_qsort_internal fuel' m2 (dat + wrap (isz * i)) isz (wrap (len - i))
  end.

Definition cu_array_qsort (fuel : nat) (arr : option cu_array_t) : outcome result :=
  match arr with
  | None => Ret (1, None)
  | Some a =>
    match data a with
    | None => Ret (1, arr)
    | Some m =>
      if capacity a =? 0 then Ret (1, arr) else
      m' <- __cu_array_qsort_internal fuel m 0 (item_size a) (length a) ;;
      Ret (0, Some (mk_array (Some m') (item_size a) (length a) (capacity a)))
    end
  end.

End Sort.

(** ** The example comparator *)

Definition byte_val (b : byte) : Z := Z.of_N (Byte.to_N b).

(** The number a sequence of bytes holds, least significant byte first. *)
Fixpoint le_val (v : bytes) : Z :=
  match v with
  | [] => 0
  | b :: v' => byte_val b + 256 * le_val v'
  end.

(** The [int] with the given value modulo [2^32] (two's complement). *)
Definition to_int (z : Z) : Z := (z + 2 ^ 31) mod 2 ^ 32 - 2 ^ 31.

(** The [int] read through a pointer, on a target with 32-bit
    little-endian [int]. *)
Definition int_at (p : bytes) : Z := to_int (le_val (firstn 4 p)).

(** [cu_compare_int]; the subtraction is taken modulo [2^32], where C
    leaves its overflow undefined. *)
Definition cu_compare_int (a b : bytes) : Z := to_int (int_at a - int_at b).

(** ** Derived notions used by the statements *)

(** The bytes behind the pointer [cu_array_at(arr, pos)]. *)
Definition item_at (a : cu_array_t) (pos : Z) : option bytes :=
  match cu_array_at (Some a) pos, data a with
  | Some off, Some m =>
    match load m off (item_size a) with
    | Ret v => Some v
    | _ => None
    end
  | _, _ => None
  end.

(** The bytes of the stored items, in order. *)
Definition contents (a : cu_array_t) : bytes :=
  match data a with
  | Some m => take (item_size a * length a) m
  | None => []
  end.

(** An array as [cu_array_init] and the later calls keep it: a block of
    exactly [item_size * capacity] bytes and [length <= capacity]. *)
Definition initialized (a : cu_array_t) : Prop :=
  match data a with
  | Some m =>
    blen m = item_size a * capacity a /\ blen m <= SIZE_MAX /\
    0 <= item_size a <= SIZE_MAX /\ 0 < capacity a <= SIZE_MAX /\
    0 <= length a <= capacity a
  | None => False
  end.

(** The calls that change an array, as one type. *)
Inductive mutation : Type :=
| Append (item : option bytes)
| Extend (items : option bytes) (num_items : Z)
| Insert (item : option bytes) (pos : Z)
| RemoveAt (pos : Z)
| Reserve (new_capacity : Z)
| Clear.

Definition run (al : allocator) (op : mutation) (arr : option cu_array_t)
  : outcome result :=
  match op with
  | Append item => cu_array_append al arr item
  | Extend items n => cu_array_extend al arr items n
  | Insert item pos => cu_array_insert al arr item pos
  | RemoveAt pos => cu_array_remove_at arr pos
  | Reserve n => cu_array_reserve al arr n
  | Clear => Ret (cu_array_clear arr)
  end.

(** The number of item slots a call needs the block to have. *)
Definition demand (op : mutation) (a : cu_array_t) : Z :=
  match op with
  | Append _ | Insert _ _ => length a + 1
  | Extend _ n => wrap (length a + n)
  | Reserve n => n
  | RemoveAt _ | Clear => 0
  end.


(** What the caller gets back from a call that ended. *)
Definition returned (r : outcome result) : option Z :=
  match r with
  | Ret x | Released x => Some (fst x)
  | _ => None
  end.


(** A comparator is consistent with a total order when the sign of its
    result is that of a total preorder. *)
Record total_order (compare : bytes -> bytes -> Z) : Prop := {
  compare_refl : forall x, compare x x = 0;
  compare_antisym : forall x y, compare x y < 0 <-> 0 < compare y x;
  compare_trans : forall x y z, compare x y <= 0 -> compare y z <= 0 -> compare x z <= 0
}.

(** [compare(At(i), At(i+1)) <= 0] for all [i < length - 1]. *)
Definition sorted (compare : bytes -> bytes -> Z) (a : cu_array_t) : Prop :=
  forall i, 0 <= i < length a - 1 ->
    exists x y, item_at a i = Some x /\ item_at a (i + 1) = Some y /\ compare x y <= 0.

(** ** Concrete data for the examples *)

(** A heap that grants every request. *)
Definition plenty : allocator := mk_allocator (fun _ => true) (fun _ => x00) false.
(** A heap that refuses every request. *)
Definition exhausted : allocator := mk_allocator (fun _ => false) (fun _ => x00) false.
(** A heap whose [realloc] does what the one of glibc does with a size
    of 0: it frees the block and returns null.  Other sizes are
    granted. *)
Definition zero_freeing : allocator :=
  mk_allocator (fun n => negb (n =? 0)) (fun _ => x00) true.

Definition byte_of (z : Z) : byte :=
  match Byte.of_N (Z.to_N (z mod 256)) with
  | Some b => b
  | None => x00
  end.

(** The object representation of an [int]. *)
Definition int_bytes (z : Z) : bytes :=
  [byte_of z; byte_of (z / 256); byte_of (z / 65536); byte_of (z / 16777216)].

Definition ints (l : list Z) : bytes := flat_map int_bytes l.

(** [cu_array_init(&arr, sizeof(int))] followed by [cu_array_extend]
    with the given values. *)
Definition int_array (l : list Z) : outcome result :=
  cu_array_extend plenty (snd (cu_array_init plenty (Some zero_array) 4))
                  (Some (ints l)) (Z.of_nat (List.length l)).

Definition read_ints (r : outcome result) : list Z :=
  match r with
  | Ret (_, Some a) =>
    map (fun i => match item_at a (Z.of_nat i) with
                  | Some v => int_at v
                  | None => -1
                  end) (seq 0 (Z.to_nat (length a)))
  | _ => []
  end.

(** The fields and arguments of type [size_t] hold values of that type. *)
Definition size_t (z : Z) : Prop := 0 <= z <= SIZE_MAX.

Definition well_typed (a : cu_array_t) : Prop :=
  size_t (item_size a) /\ size_t (length a) /\ size_t (capacity a).

Definition well_typed_args (op : mutation) : Prop :=
  match op with
  | Extend _ n | Reserve n => size_t n
  | Insert _ pos | RemoveAt pos => size_t pos
  | Append _ | Clear => True
  end.

(** The array a single-item write goes to: the array itself while it has
    a free slot, the grown one otherwise. *)
Definition room_for_one (al : allocator) (a a1 : cu_array_t) : Prop :=
  (length a < capacity a /\ a1 = a) \/
  (capacity a <= length a /\ __cu_array_grow al (Some a) = Ret (0, Some a1)).

(** A full array of 32 one-byte items. *)
Definition full_byte_array : cu_array_t :=
  mk_array (Some (repeat x2a 32)) 1 32 32.

(** A caller appending the items behind the given pointers one after the
    other, stopping at the first call that fails; [heap] is the heap each
    call sees. *)
Fixpoint append_all (heap : nat -> allocator) (arr : option cu_array_t)
    (items : list (option bytes)) : outcome result :=
  match items with
  | [] => Ret (0, arr)
  | item :: rest =>
    r <- cu_array_append (heap (List.length rest)) arr item ;;
    if fst r =? 0 then append_all heap (snd r) rest else Ret r
  end.


(** What [cu_array_init(&arr, sizeof(int))] leaves on the heap [plenty]. *)
Definition empty_int_array : cu_array_t :=
  mk_array (Some (fresh plenty 0 128)) 4 0 CU_ARRAY_DEFAULT_SIZE.

(** The item with index [k] of the array that starts at offset [dat]. *)
Definition nth_item (m : bytes) (dat isz k : Z) : bytes :=
  take isz (drop (dat + isz * k) m).

(** [len] items of [isz] bytes starting at offset [dat] lie inside [m]. *)
Definition region (m : bytes) (dat isz len : Z) : Prop :=
  0 <= dat /\ 0 <= isz /\ 0 <= len <= SIZE_MAX /\
  dat + isz * len <= blen m /\ isz * len <= SIZE_MAX.

(** A run that ended, without touching memory outside the block: it
    returned a value satisfying [P], or stopped at the first exchange of
    two items larger than the static [swap_buffer]. *)
Definition safe {A : Type} (isz : Z) (P : A -> Prop) (r : outcome A) : Prop :=
  match r with
  | Ret x => P x
  | Fault ScratchOverflow => CU_ARRAY_MAX_ITEM_SIZE < isz
  | Fault _ => False
  | OutOfFuel => False
  | Released _ => False
  end.

(** A comparator that orders items as little-endian unsigned numbers,
    as a caller would write one for [unsigned] or [unsigned char] items. *)
Definition compare_unsigned (a b : bytes) : Z := le_val a - le_val b.

(** The array of [int] holding 3, 2, 0, 1. *)
Definition unsorted_ints : cu_array_t :=
  Eval vm_compute in
    match int_array [3; 2; 0; 1] with
    | Ret (_, Some a) => a
    | _ => zero_array
    end.

(** The array of [int] holding 1, 2, 3. *)
Definition three_ints : cu_array_t :=
  Eval vm_compute in
    match int_array [1; 2; 3] with
    | Ret (_, Some a) => a
    | _ => zero_array
    end.

(** An array of [int] filled to its capacity of 32 with 0, 1, ..., 31. *)
Definition full_ints : cu_array_t :=
  Eval vm_compute in
    match int_array (map Z.of_nat (seq 0 32)) with
    | Ret (_, Some a) => a
    | _ => zero_array
    end.

(** A full array of 32 items of size 0, as [cu_array_init(&arr, 0)] and
    32 Appends leave it. *)
Definition full_empty_items : cu_array_t := mk_array (Some []) 0 32 32.

(** Two items of 200 bytes, the larger one first:
    [cu_array_init(&arr, 200)] followed by [cu_array_extend]. *)
Definition wide_items : cu_array_t :=
  Eval vm_compute in
    match cu_array_extend plenty (snd (cu_array_init plenty (Some zero_array) 200))
                          (Some (repeat x01 200 ++ repeat x00 200)) 2 with
    | Ret (_, Some a) => a
    | _ => zero_array
    end.

(** The items with index [from], ..., [from + n - 1] of the array that
    starts at offset [dat], in order. *)
Definition items_of (m : bytes) (dat isz : Z) (from n : nat) : list bytes :=
  map (fun k => nth_item m dat isz (Z.of_nat k)) (seq from n).

(** The stored items of an array, in order. *)
Definition stored_items (a : cu_array_t) : list bytes :=
  match data a with
  | Some m => items_of m 0 (item_size a) 0 (Z.to_nat (length a))
  | None => []
  end.

(** The bytes of the block behind the stored items. *)
Definition slack (a : cu_array_t) : bytes :=
  match data a with
  | Some m => drop (item_size a * length a) m
  | None => []
  end.

(** ** The power-of-two growth policy ([CU_GROWTH_RATE_SPEED]) *)

(** [__next_power_of_two], the branch for [SIZE_MAX == 0xFFFFFFFFFFFFFFFF]. *)
Definition __next_power_of_two (v : Z) : Z :=
  let v := wrap (v - 1) in
  let v := Z.lor v (Z.shiftr v 1) in
  let v := Z.lor v (Z.shiftr v 2) in
  let v := Z.lor v (Z.shiftr v 4) in
  let v := Z.lor v (Z.shiftr v 8) in
  let v := Z.lor v (Z.shiftr v 16) in
  let v := Z.lor v (Z.shiftr v 32) in
  wrap (v + 1).

(** [__cu_array_grow], built with [CU_GROWTH_RATE_SPEED]. *)
Definition __cu_array_grow_speed (al : allocator) (arr : option cu_array_t)
  : outcome result :=
  match arr with
  | None => Ret (1, None)
  | Some a =>
    match data a with
    | None => Ret (1, arr)
    | Some m =>
      if capacity a =? 0 then Ret (1, arr) else
      let new_capacity := __next_power_of_two (capacity a) in
      let new_capacity :=
        if new_capacity =? capacity a
        then __next_power_of_two (wrap (capacity a + 1))
        else new_capacity in
      if new_capacity <=? length a then Ret (1, arr) else
      match cu_realloc al m (wrap (item_size a * new_capacity)) with
      | Refused => Ret (1, arr)
      | Freed => Released (1, arr)
      | Moved tmp =>
        Ret (0, Some (mk_array (Some tmp) (item_size a) (length a) new_capacity))
      end
    end
  end.

(** In [y], no bit above [k] is set and the [w] bits from [k] downwards
    are all set. *)
Definition top_ones (y k w : Z) : Prop :=
  (forall i, k < i -> Z.testbit y i = false) /\
  (forall i, 0 <= i -> k - w < i <= k -> Z.testbit y i = true).

(** ** The test macros of [cu_test.h] *)

(** The file-scope variables that [__CU_TEST_INIT] declares. *)
Record cu_test_globals : Type := mk_globals {
  __g_cu_unit_test_result : Z;
  __g_cu_num_tests : Z;
  __g_cu_num_tests_passed : Z;
  __g_cu_num_checks : Z;
  __g_cu_num_checks_passed : Z
}.

Definition __CU_TEST_INIT : cu_test_globals := mk_globals 0 0 0 0 0.

(** A use of [CU_TEST_CHECK] or [CU_TEST_REQUIRE] in the body of a test
    function, with the value its condition evaluates to. *)
Inductive test_step : Type :=
| StepCheck (condition : bool)
| StepRequire (cond : bool).

(** [CU_TEST_START]: the local [__cu_test_result] starts at 0 and the
    test is counted. *)
Definition CU_TEST_START (g : cu_test_globals) : Z * cu_test_globals :=
  (0, mk_globals (__g_cu_unit_test_result g) (wrap (__g_cu_num_tests g + 1))
                 (__g_cu_num_tests_passed g) (__g_cu_num_checks g)
                 (__g_cu_num_checks_passed g)).

Definition count_check (g : cu_test_globals) : cu_test_globals :=
  mk_globals (__g_cu_unit_test_result g) (__g_cu_num_tests g)
             (__g_cu_num_tests_passed g) (wrap (__g_cu_num_checks g + 1))
             (__g_cu_num_checks_passed g).

Definition count_check_passed (g : cu_test_globals) : cu_test_globals :=
  mk_globals (__g_cu_unit_test_result g) (__g_cu_num_tests g)
             (__g_cu_num_tests_passed g) (__g_cu_num_checks g)
             (wrap (__g_cu_num_checks_passed g + 1)).

(** The steps of a test body from the state [(__cu_test_result, g)]:
    [inl] when a failed [CU_TEST_REQUIRE] returned from the function,
    [inr] when control reached the end of the steps. *)
Fixpoint run_steps (steps : list test_step) (res : Z) (g : cu_test_globals)
  : (Z * cu_test_globals) + (Z * cu_test_globals) :=
  match steps with
  | [] => inr (res, g)
  | StepCheck condition :: rest =>
    let g := count_check g in
    if condition then run_steps rest res (count_check_passed g)
    else run_steps rest 1 g
  | StepRequire cond :: rest =>
    let g := count_check g in
    if negb cond then inl (1, g)
    else run_steps rest res (count_check_passed g)
  end.

(** [CU_TEST_END] *)
Definition CU_TEST_END (res : Z) (g : cu_test_globals) : Z * cu_test_globals :=
  if res =? 0
  then (res, mk_globals (__g_cu_unit_test_result g) (__g_cu_num_tests g)
                        (wrap (__g_cu_num_tests_passed g + 1)) (__g_cu_num_checks g)
                        (__g_cu_num_checks_passed g))
  else (res, mk_globals 1 (__g_cu_num_tests g) (__g_cu_num_tests_passed g)
                        (__g_cu_num_checks g) (__g_cu_num_checks_passed g)).

(** A test function: [CU_TEST_START], the steps, [CU_TEST_END]. *)
Definition run_test (steps : list test_step) (g : cu_test_globals)
  : Z * cu_test_globals :=
  let (res, g) := CU_TEST_START g in
  match run_steps steps res g with
  | inl returned => returned
  | inr (res, g) => CU_TEST_END res g
  end.

(** The body of [CU_RUN_TESTS]: the test functions are called one after
    the other and their results dropped. *)
Definition run_tests (tests : list (list test_step)) (g : cu_test_globals)
  : cu_test_globals :=
  fold_left (fun g steps => snd (run_test steps g)) tests g.

(** [CU_RUN_END]: the value [main] returns. *)
Definition CU_RUN_END (g : cu_test_globals) : Z := __g_cu_unit_test_result g.

(** The number of conditions a test body evaluates, and how many of
    them hold. *)
Fixpoint evaluated (steps : list test_step) : nat :=
  match steps with
  | [] => 0
  | StepCheck _ :: rest => S (evaluated rest)
  | StepRequire cond :: rest => if cond then S (evaluated rest) else 1
  end.

Fixpoint evaluated_true (steps : list test_step) : nat :=
  match steps with
  | [] => 0
  | StepCheck condition :: rest =>
    if condition then S (evaluated_true rest) else evaluated_true rest
  | StepRequire cond :: rest => if cond then S (evaluated_true rest) else 0
  end.

(** No [CU_TEST_REQUIRE] of the body fails. *)
Definition requires_hold (steps : list test_step) : bool :=
  forallb (fun s => match s with StepRequire cond => cond | StepCheck _ => true end) steps.

(** No [CU_TEST_CHECK] of the body fails. *)
Definition checks_hold (steps : list test_step) : bool :=
  forallb (fun s => match s with StepCheck condition => condition | StepRequire _ => true end) steps.

Definition count_where {A : Type} (p : A -> bool) (l : list A) : nat :=
  List.length (filter p l).

(** The counters as sums modulo [2^64], relative to a starting state. *)
Definition counts (g : cu_test_globals) (tests passed checks checks_passed : Z) : Prop :=
  __g_cu_num_tests g = wrap tests /\
  __g_cu_num_tests_passed g = wrap passed /\
  __g_cu_num_checks g = wrap checks /\
  __g_cu_num_checks_passed g = wrap checks_passed.

(** A test body passes when all its conditions hold; it marks the run
    as failed when it reaches [CU_TEST_END] after a failed check. *)
Definition passes (steps : list test_step) : bool :=
  requires_hold steps && checks_hold steps.

Definition marks_failure (steps : list test_step) : bool :=
  requires_hold steps && negb (checks_hold steps).

(** * Properties *)

(** ** Arithmetic of [size_t] *)

Lemma wrap_small z : 0 <= z <= SIZE_MAX -> wrap z = z.
Proof.
  unfold wrap, SIZE_MAX. intros H. apply Z.mod_small. lia.
Qed.

Lemma wrap_range z : 0 <= wrap z <= SIZE_MAX.
Proof.
  unfold wrap, SIZE_MAX, SIZE_BITS.
  pose proof (Z.mod_pos_bound z (2 ^ 64) ltac:(lia)). lia.
Qed.

Lemma wrap_double_gt c : 0 <= c <= SIZE_MAX -> c < wrap (c * 2) -> wrap (c * 2) = 2 * c.
Proof.
  unfold wrap, SIZE_MAX, SIZE_BITS. intros Hc Hlt.
  destruct (Z_lt_ge_dec (c * 2) (2 ^ 64)) as [Hs | Hb].
  - rewrite Z.mod_small by lia. lia.
  - exfalso.
    assert (E : (c * 2) mod 2 ^ 64 = c * 2 - 2 ^ 64).
    { symmetry. apply Z.mod_unique with (q := 1); lia. }
    lia.
Qed.

(** ** Lifecycle *)

Ltac inv H := inversion H; subst; clear H.

Lemma realloc_freed al m n :
  cu_realloc al m n = Freed ->
  n = 0 /\ grants al 0 = false /\ frees_on_zero al = true.
Proof.
  unfold cu_realloc. intros H.
  destruct (grants al n) eqn:Hg; [discriminate|].
  destruct (n =? 0) eqn:Hn; [|discriminate].
  destruct (frees_on_zero al) eqn:Hf; [|discriminate].
  assert (n = 0) by lia. subst n. auto.
Qed.

Lemma grow_cases al a r arr' :
  __cu_array_grow al (Some a) = Ret (r, arr') ->
  (r = 1 /\ arr' = Some a) \/
  (r = 0 /\ exists m tmp,
      data a = Some m /\ capacity a <> 0 /\ length a < wrap (capacity a * 2) /\
      cu_realloc al m (wrap (item_size a * wrap (capacity a * 2))) = Moved tmp /\
      arr' = Some (mk_array (Some tmp) (item_size a) (length a) (wrap (capacity a * 2)))).
Proof.
  unfold __cu_array_grow. intros H.
  destruct (data a) as [m|] eqn:Hd; [|inv H; auto].
  destruct (capacity a =? 0) eqn:Hc; [inv H; auto|].
  destruct (wrap (capacity a * 2) <=? length a) eqn:Hl; [inv H; auto|].
  destruct (cu_realloc al m _) as [tmp| |] eqn:Hr; inv H; auto.
  right. split; auto. exists m, tmp. repeat split; auto; lia.
Qed.


Lemma reserve_cases al a n r arr' :
  cu_array_reserve al (Some a) n = Ret (r, arr') ->
  (r = 1 /\ arr' = Some a) \/
  (r = 0 /\ arr' = Some a /\ n <= capacity a) \/
  (r = 0 /\ exists m tmp,
      data a = Some m /\ capacity a <> 0 /\ capacity a < n /\
      cu_realloc al m (wrap (item_size a * n)) = Moved tmp /\
      arr' = Some (mk_array (Some tmp) (item_size a) (length a) n)).
Proof.
  unfold cu_array_reserve. intros H.
  destruct (data a) as [m|] eqn:Hd; [|inv H; auto].
  destruct (capacity a =? 0) eqn:Hc; [inv H; auto|].
  destruct (n <=? capacity a) eqn:Hl; [inv H; right; left; repeat split; auto; lia|].
  destruct (cu_realloc al m _) as [tmp| |] eqn:Hr; inv H; auto.
  right. right. split; auto. exists m, tmp. repeat split; auto; lia.
Qed.


Lemma room_for_one_fields al a a1 :
  room_for_one al a a1 ->
  item_size a1 = item_size a /\ length a1 = length a /\
  (capacity a1 = capacity a \/
   (capacity a <= length a /\ capacity a1 = wrap (capacity a * 2))) /\
  length a < capacity a1.
Proof.
  intros [[Hlt ->] | [Hle Hg]].
  - repeat split; auto.
  - apply grow_cases in Hg. destruct Hg as [[H _] | [_ (m & tmp & _ & _ & Hl & _ & E)]].
    + discriminate.
    + inv E. cbn. repeat split; auto.
Qed.

Lemma from_bind {A B} (r : outcome A) (k : A -> outcome B) y :
  bind r k = Ret y -> exists x, r = Ret x /\ k x = Ret y.
Proof.
  destruct r; cbn; intros H; try discriminate; [eauto|].
  destruct (k x); discriminate.
Qed.


Lemma room_cases al a res arr1 :
  (if capacity a <=? length a then __cu_array_grow al (Some a) else Ret (0, Some a))
    = Ret (res, arr1) ->
  (res = 1 /\ arr1 = Some a) \/
  (res = 0 /\ exists a1, arr1 = Some a1 /\ room_for_one al a a1).
Proof.
  intros H. destruct (capacity a <=? length a) eqn:Hfull.
  - pose proof H as Hg. apply grow_cases in H.
    destruct H as [[-> ->] | [-> (m & tmp & _ & _ & _ & _ & ->)]]; [auto|].
    right. split; [reflexivity|]. eexists. split; [reflexivity|].
    right. split; [lia | exact Hg].
  - inv H. right. split; [reflexivity|]. exists a. split; [reflexivity|].
    left. split; [lia | reflexivity].
Qed.

Lemma append_cases al a item r arr' :
  cu_array_append al (Some a) item = Ret (r, arr') ->
  (r = 1 /\ arr' = Some a) \/
  (r = 0 /\ exists src a1 m m',
      item = Some src /\ room_for_one al a a1 /\ data a1 = Some m /\
      cu_memcpy_from m (Some (wrap (item_size a1 * length a1))) item (item_size a1)
        = Ret m' /\
      arr' = Some (mk_array (Some m') (item_size a1) (wrap (length a1 + 1)) (capacity a1))).
Proof.
  unfold cu_array_append. intros H.
  destruct item as [src|]; [|inv H; auto].
  destruct (data a) as [m0|] eqn:Hd; [|inv H; auto].
  destruct (capacity a =? 0) eqn:Hc; [inv H; auto|].
  apply from_bind in H. destruct H as ([res arr1] & Hg & H).
  apply room_cases in Hg. destruct Hg as [[-> ->] | [-> (a1 & -> & Hroom)]].
  - inv H. auto.
  - destruct (data a1) as [m|] eqn:Hd1; [|discriminate].
    apply from_bind in H. destruct H as (m' & Hm & E). inv E.
    right. split; auto. exists src, a1, m, m'. repeat split; auto.
Qed.

Lemma insert_cases al a item pos r arr' :
  cu_array_insert al (Some a) item pos = Ret (r, arr') ->
  (r = 1 /\ arr' = Some a) \/
  (r = 0 /\ exists src a1 m m1 m2,
      item = Some src /\ pos <= length a /\ room_for_one al a a1 /\ data a1 = Some m /\
      cu_memmove m (cu_array_at (Some a1) (wrap (pos + 1))) (cu_array_at (Some a1) pos)
                 (wrap (wrap (length a1 - pos) * item_size a1)) = Ret m1 /\
      cu_memcpy_from m1 (cu_array_at (Some a1) pos) item (item_size a1) = Ret m2 /\
      arr' = Some (mk_array (Some m2) (item_size a1) (wrap (length a1 + 1)) (capacity a1))).
Proof.
  unfold cu_array_insert. intros H.
  destruct item as [src|]; [|inv H; auto].
  destruct (data a) as [m0|] eqn:Hd; [|inv H; auto].
  destruct ((capacity a =? 0) || (length a <? pos)) eqn:Hc; [inv H; auto|].
  apply orb_false_iff in Hc. destruct Hc as [Hc Hp].
  apply from_bind in H. destruct H as ([res arr1] & Hg & H).
  apply room_cases in Hg. destruct Hg as [[-> ->] | [-> (a1 & -> & Hroom)]].
  - inv H. auto.
  - destruct (data a1) as [m|] eqn:Hd1; [|discriminate].
    apply from_bind in H. destruct H as (m1 & Hm1 & H).
    apply from_bind in H. destruct H as (m2 & Hm2 & E). inv E.
    right. split; auto. exists src, a1, m, m1, m2. repeat split; auto. lia.
Qed.

Lemma extend_cases al a items n r arr' :
  cu_array_extend al (Some a) items n = Ret (r, arr') ->
  (r = 1 /\ arr' = Some a) \/
  (r = 0 /\ exists src a1 m m',
      items = Some src /\
      cu_array_reserve al (Some a) (wrap (length a + n)) = Ret (0, Some a1) /\
      data a1 = Some m /\
      cu_memcpy_from m (Some (wrap (item_size a1 * length a1))) items
                     (wrap (n * item_size a1)) = Ret m' /\
      arr' = Some (mk_array (Some m') (item_size a1) (wrap (length a1 + n)) (capacity a1))).
Proof.
  unfold cu_array_extend. intros H.
  destruct items as [src|]; [|inv H; auto].
  destruct (data a) as [m0|] eqn:Hd; [|inv H; auto].
  destruct (capacity a =? 0) eqn:Hc; [inv H; auto|].
  apply from_bind in H. destruct H as ([res arr1] & Hr & H).
  pose proof (reserve_cases _ _ _ _ _ Hr) as Hcases.
  destruct Hcases as [[-> ->] | [(-> & -> & Hle) | (-> & m & tmp & Hdm & Hc0 & Hlt & Hre & ->)]].
  - inv H. auto.
  - rewrite Hd in H. apply from_bind in H. destruct H as (m' & Hm & E). inv E.
    right. split; auto. exists src, a, m0, m'. repeat split; auto.
  - cbn [data] in H. apply from_bind in H. destruct H as (m' & Hm & E). inv E.
    right. split; auto.
    exists src, (mk_array (Some tmp) (item_size a) (length a) (wrap (length a + n))), tmp, m'.
    repeat split; auto.
Qed.

Lemma remove_at_cases a pos r arr' :
  cu_array_remove_at (Some a) pos = Ret (r, arr') ->
  (r = 1 /\ arr' = Some a) \/
  (r = 0 /\ exists m m',
      data a = Some m /\ capacity a <> 0 /\ pos < length a /\
      cu_memmove m (cu_array_at (Some a) pos) (cu_array_at (Some a) (wrap (pos + 1)))
                 (wrap (wrap (length a - pos) * item_size a)) = Ret m' /\
      arr' = Some (mk_array (Some m') (item_size a) (wrap (length a - 1)) (capacity a))).
Proof.
  unfold cu_array_remove_at. intros H.
  destruct (data a) as [m|] eqn:Hd; [|inv H; auto].
  destruct ((capacity a =? 0) || (length a <=? pos)) eqn:Hc; [inv H; auto|].
  apply orb_false_iff in Hc. destruct Hc as [Hc Hp].
  apply from_bind in H. destruct H as (m' & Hm & E). inv E.
  right. split; auto. exists m, m'. repeat split; auto; lia.
Qed.

(** ** Failure leaves the array as it was *)










(** ** Capacity *)

(** C5. (1) A successful mutating call on an array with
    [length <= capacity] leaves [length <= capacity]; the capacity never
    shrinks, and it changes only when the call needs more slots than the
    array has ([length + 1] for Append and Insert, [length + count] for
    Extend, the requested capacity for Reserve; RemoveAt and Clear never
    change it); when Append or Insert change it, the new capacity is
    exactly twice the old.  (2) A successful [__cu_array_grow] sets the
    capacity to [capacity * 2] in [size_t] arithmetic, above [length], and
    that is exactly twice the old capacity whenever the array was full,
    which is when Append and Insert call it, or the product fits
    [size_t].  (3) [__cu_array_grow] fails,
    changing nothing, when [capacity * 2] does not exceed [length]. *)
Theorem capacity_invariant :
  (forall al op a a',
      well_typed a -> well_typed_args op -> length a <= capacity a ->
      run al op (Some a) = Ret (0, Some a') ->
      length a' <= capacity a' /\
      capacity a <= capacity a' /\
      (capacity a' <> capacity a -> capacity a < demand op a) /\
      (capacity a' <> capacity a ->
       match op with
       | Append _ | Insert _ _ => capacity a' = 2 * capacity a
       | _ => True
       end)) /\
  (forall al a a',
      well_typed a ->
      __cu_array_grow al (Some a) = Ret (0, Some a') ->
      capacity a' = wrap (capacity a * 2) /\ length a < capacity a' /\
      (capacity a <= length a \/ 2 * capacity a <= SIZE_MAX ->
       capacity a' = 2 * capacity a)) /\
  (forall al a,
      wrap (capacity a * 2) <= length a ->
      __cu_array_grow al (Some a) = Ret (1, Some a)).
Proof.
  assert (Hone : forall al a a1,
    well_typed a -> length a <= capacity a -> room_for_one al a a1 ->
    wrap (length a1 + 1) <= capacity a1 /\ capacity a <= capacity a1 /\
    (capacity a1 <> capacity a -> capacity a < length a + 1 /\ capacity a1 = 2 * capacity a)).
  { intros al a a1 (_ & Hl & Hc) Hinv Hroom.
    apply room_for_one_fields in Hroom.
    destruct Hroom as (_ & El & Hcap & Hlt). rewrite El.
    assert (Hw : wrap (length a + 1) = length a + 1).
    { apply wrap_small. destruct Hcap as [E | [_ E]].
      - unfold size_t in *. lia.
      - pose proof (wrap_range (capacity a * 2)). unfold size_t in *. lia. }
    rewrite Hw. destruct Hcap as [E | [Hfull E]].
    - rewrite E. repeat split; try lia.
    - assert (E2 : wrap (capacity a * 2) = 2 * capacity a).
      { apply wrap_double_gt; [exact Hc | lia]. }
      unfold size_t in *. repeat split; try lia. }
  split; [|split].
  - intros al op a a' Hwt Hargs Hinv Hrun.
    destruct op; cbn [run] in Hrun; cbn [demand].
    + apply append_cases in Hrun.
      destruct Hrun as [[E _] | [_ (src & a1 & m & m' & _ & Hroom & _ & _ & E)]]; [discriminate|].
      inv E. cbn [length capacity].
      destruct (Hone al a a1 Hwt Hinv Hroom) as (H1 & H2 & H3).
      repeat split; auto; intros Hne; apply H3; exact Hne.
    + apply extend_cases in Hrun.
      destruct Hrun as [[E _] | [_ (src & a1 & m & m' & _ & Hres & _ & _ & E)]]; [discriminate|].
      inv E. cbn [length capacity].
      apply reserve_cases in Hres.
      destruct Hres as [[E _] | [(_ & E & Hle) | (_ & m0 & tmp & _ & _ & Hlt & _ & E)]];
        [discriminate | |]; inv E; cbn [length capacity]; repeat split; auto; lia.
    + apply insert_cases in Hrun.
      destruct Hrun as [[E _] | [_ (src & a1 & m & m1 & m2 & _ & _ & Hroom & _ & _ & _ & E)]];
        [discriminate|].
      inv E. cbn [length capacity].
      destruct (Hone al a a1 Hwt Hinv Hroom) as (H1 & H2 & H3).
      repeat split; auto; intros Hne; apply H3; exact Hne.
    + apply remove_at_cases in Hrun.
      destruct Hrun as [[E _] | [_ (m & m' & _ & _ & Hpos & _ & E)]]; [discriminate|].
      inv E. cbn [length capacity]. cbn in Hargs.
      destruct Hwt as (_ & Hl & _). unfold size_t in *.
      rewrite wrap_small by lia. repeat split; auto; lia.
    + apply reserve_cases in Hrun.
      destruct Hrun as [[E _] | [(_ & E & Hle) | (_ & m0 & tmp & _ & _ & Hlt & _ & E)]];
        [discriminate | |]; inv E; cbn [length capacity]; repeat split; auto; lia.
    + inversion Hrun. subst. cbn [length capacity].
      destruct Hwt as (_ & Hl & Hc). unfold size_t in *. repeat split; auto; lia.
  - intros al a a' (_ & Hl & Hc) Hg.
    apply grow_cases in Hg.
    destruct Hg as [[E _] | [_ (m & tmp & _ & _ & Hlt & _ & E)]]; [discriminate|].
    inv E. cbn [length capacity]. repeat split; auto.
    intros [Hfull | Hfits].
    + apply wrap_double_gt; [exact Hc | lia].
    + unfold size_t in Hc. rewrite wrap_small; lia.
  - intros al a Hle. unfold __cu_array_grow.
    destruct (data a); [|reflexivity].
    destruct (capacity a =? 0); [reflexivity|].
    destruct (wrap (capacity a * 2) <=? length a) eqn:E; [reflexivity | lia].
Qed.

Lemma capacity_invariant_witness :
  exists a',
    run plenty (Append (Some [x01])) (Some full_byte_array) = Ret (0, Some a') /\
    length a' <= capacity a' /\ capacity a' = 2 * capacity full_byte_array.
Proof.
  eexists. split; [vm_compute; reflexivity|].
  assert (Hwt : well_typed full_byte_array) by (vm_compute; intuition discriminate).
  assert (Hinv : length full_byte_array <= capacity full_byte_array) by (cbn; lia).
  destruct (proj1 capacity_invariant plenty (Append (Some [x01])) full_byte_array _
              Hwt I Hinv eq_refl) as (H1 & _ & _ & H4).
  split; [exact H1 | apply H4; cbn; lia].
Defined.

(** ** Initialize and Deinitialize *)

Lemma blen_fresh al from n : blen (fresh al from n) = Z.of_nat n.
Proof.
  unfold blen, fresh. rewrite length_map, length_seq. reflexivity.
Qed.

(** C8. When the heap grants the request, Initialize on an array in the
    zero state (null block, capacity 0) returns 0 and leaves capacity
    [CU_ARRAY_DEFAULT_SIZE = 32], length 0 and the given item size;
    Deinitialize on an array with a block and a non-zero capacity returns
    0 and leaves the zero state (null block, length 0, capacity 0);
    Initialize on an array that has a block or a non-zero capacity
    returns 1 and changes nothing; Deinitialize on the zero state returns
    1, so a second Deinitialize fails. *)
Theorem init_deinit_round_trip :
  (forall al a isz,
      data a = None -> capacity a = 0 ->
      grants al (wrap (isz * CU_ARRAY_DEFAULT_SIZE)) = true ->
      exists m,
        cu_array_init al (Some a) isz
          = (0, Some (mk_array (Some m) isz 0 CU_ARRAY_DEFAULT_SIZE)) /\
        blen m = wrap (isz * CU_ARRAY_DEFAULT_SIZE) /\ CU_ARRAY_DEFAULT_SIZE = 32) /\
  (forall a,
      data a <> None -> capacity a <> 0 ->
      cu_array_deinit (Some a) = (0, Some zero_array) /\
      data zero_array = None /\ length zero_array = 0 /\ capacity zero_array = 0) /\
  (forall al a isz,
      data a <> None \/ capacity a <> 0 ->
      cu_array_init al (Some a) isz = (1, Some a)) /\
  (forall a r arr',
      data a <> None -> capacity a <> 0 ->
      cu_array_deinit (Some a) = (r, arr') ->
      cu_array_deinit arr' = (1, arr')).
Proof.
  repeat split.
  - intros al a isz Hd Hc Hg. unfold cu_array_init, cu_malloc.
    rewrite Hd, Hc, Hg. cbn. eexists. split; [reflexivity|]. split; [|reflexivity].
    rewrite blen_fresh. apply Z2Nat.id. apply wrap_range.
  - destruct (data a) eqn:Hd; [|contradiction].
    unfold cu_array_deinit. rewrite Hd.
    destruct (capacity a =? 0) eqn:Hc; [lia | reflexivity].
  - intros al a isz H. unfold cu_array_init.
    destruct (data a) eqn:Hd; [reflexivity|].
    destruct H as [H | H]; [contradiction|].
    destruct (capacity a =? 0) eqn:Hc; [lia | reflexivity].
  - intros a r arr' Hd Hc H. unfold cu_array_deinit in H.
    destruct (data a); [|contradiction].
    destruct (capacity a =? 0) eqn:E; [lia|].
    inversion H. reflexivity.
Qed.

Lemma init_deinit_round_trip_witness :
  exists m,
    cu_array_init plenty (Some zero_array) 4
      = (0, Some (mk_array (Some m) 4 0 CU_ARRAY_DEFAULT_SIZE)) /\
    blen m = wrap (4 * CU_ARRAY_DEFAULT_SIZE) /\ CU_ARRAY_DEFAULT_SIZE = 32.
Proof.
  apply (proj1 init_deinit_round_trip plenty zero_array 4); reflexivity.
Defined.

(** ** Clear *)

(** C9, as stated, has every call other than Clear reject the zero
    state; Initialize accepts it. *)
Lemma zero_state_accepted_by_init :
  fst (cu_array_init plenty (Some zero_array) 4) = 0.
Proof. reflexivity. Qed.

(** C9, amended.  Clear returns 0 on every non-null array, whatever its
    state, and changes only [length], to 0; it returns 1 on a null
    pointer.  The zero state that Clear accepts is rejected by every
    other call except Initialize: Deinitialize, At, Append, Extend,
    Insert, RemoveAt, Reserve, Sort and the internal grow return 1 (At:
    null) and leave it unchanged. *)
Theorem clear_any_state :
  (forall a,
      cu_array_clear (Some a) = (0, Some (mk_array (data a) (item_size a) 0 (capacity a)))) /\
  cu_array_clear None = (1, None) /\
  cu_array_clear (Some zero_array) = (0, Some zero_array) /\
  cu_array_deinit (Some zero_array) = (1, Some zero_array) /\
  (forall pos, cu_array_at (Some zero_array) pos = None) /\
  (forall al op,
      match op with
      | Clear => True
      | _ => run al op (Some zero_array) = Ret (1, Some zero_array)
      end) /\
  (forall compare fuel,
      cu_array_qsort compare fuel (Some zero_array) = Ret (1, Some zero_array)) /\
  (forall al, __cu_array_grow al (Some zero_array) = Ret (1, Some zero_array)).
Proof.
  repeat split.
  intros al op. destruct op; cbn; try reflexivity.
  - destruct item; reflexivity.
  - destruct items; reflexivity.
  - destruct item; reflexivity.
Qed.

(** ** Blocks of bytes *)

Lemma blen_nonneg m : 0 <= blen m.
Proof. unfold blen. lia. Qed.

Lemma blen_app a b : blen (a ++ b) = blen a + blen b.
Proof. unfold blen. rewrite length_app. lia. Qed.

Lemma blen_take n m : 0 <= n <= blen m -> blen (take n m) = n.
Proof.
  unfold blen, take. intros H. rewrite length_firstn. lia.
Qed.

Lemma blen_drop n m : 0 <= n <= blen m -> blen (drop n m) = blen m - n.
Proof.
  unfold blen, drop. intros H. rewrite length_skipn. lia.
Qed.

Lemma take_drop n m : take n m ++ drop n m = m.
Proof. apply firstn_skipn. Qed.

Lemma take_all n m : blen m <= n -> take n m = m.
Proof.
  unfold blen, take. intros H. apply firstn_all2. lia.
Qed.


Lemma drop_zero m : drop 0 m = m.
Proof. reflexivity. Qed.

Lemma drop_all n m : blen m <= n -> drop n m = [].
Proof.
  unfold blen, drop. intros H. apply skipn_all2. lia.
Qed.

Lemma take_app_le n a b : 0 <= n <= blen a -> take n (a ++ b) = take n a.
Proof.
  unfold blen, take. intros H. rewrite firstn_app.
  replace (Z.to_nat n - List.length a)%nat with 0%nat by lia.
  cbn. apply app_nil_r.
Qed.

Lemma take_app_ge n a b : blen a <= n -> take n (a ++ b) = a ++ take (n - blen a) b.
Proof.
  unfold blen, take. intros H. rewrite firstn_app.
  rewrite firstn_all2 by lia. f_equal. f_equal. lia.
Qed.

Lemma drop_app_le n a b : 0 <= n <= blen a -> drop n (a ++ b) = drop n a ++ b.
Proof.
  unfold blen, drop. intros H. rewrite skipn_app.
  replace (Z.to_nat n - List.length a)%nat with 0%nat by lia. reflexivity.
Qed.

Lemma drop_app_ge n a b : blen a <= n -> drop n (a ++ b) = drop (n - blen a) b.
Proof.
  unfold blen, drop. intros H. rewrite skipn_app.
  rewrite skipn_all2 by lia. cbn. f_equal. lia.
Qed.

Lemma take_take i j m : 0 <= i <= j -> take i (take j m) = take i m.
Proof.
  unfold take. intros H. rewrite firstn_firstn. f_equal. lia.
Qed.

Lemma drop_drop i j m : 0 <= i -> 0 <= j -> drop i (drop j m) = drop (j + i) m.
Proof.
  unfold drop. intros Hi Hj. rewrite skipn_skipn. f_equal. lia.
Qed.

Lemma drop_take i j m : 0 <= i <= j -> drop i (take j m) = take (j - i) (drop i m).
Proof.
  unfold take, drop. intros H. rewrite skipn_firstn_comm. f_equal. lia.
Qed.

Lemma load_ok m off n :
  0 <= off -> 0 <= n -> off + n <= blen m -> load m off n = Ret (take n (drop off m)).
Proof.
  intros H1 H2 H3. unfold load.
  destruct (0 <=? off) eqn:E1; [|lia].
  destruct (0 <=? n) eqn:E2; [|lia].
  destruct (off + n <=? blen m) eqn:E3; [|lia].
  reflexivity.
Qed.

Lemma load_inv m off n v :
  load m off n = Ret v ->
  0 <= off /\ 0 <= n /\ off + n <= blen m /\ v = take n (drop off m) /\ blen v = n.
Proof.
  unfold load. intros H.
  destruct (0 <=? off) eqn:E1; [|discriminate].
  destruct (0 <=? n) eqn:E2; [|discriminate].
  destruct (off + n <=? blen m) eqn:E3; [|discriminate].
  cbn in H. inversion H. repeat split; try lia.
  apply blen_take. rewrite blen_drop; lia.
Qed.

Lemma store_ok m off v :
  0 <= off -> off + blen v <= blen m ->
  store m off v = Ret (take off m ++ v ++ drop (off + blen v) m).
Proof.
  intros H1 H2. unfold store.
  destruct (0 <=? off) eqn:E1; [|lia].
  destruct (off + blen v <=? blen m) eqn:E2; [|lia].
  reflexivity.
Qed.

Lemma store_inv m off v m' :
  store m off v = Ret m' ->
  0 <= off /\ off + blen v <= blen m /\
  m' = take off m ++ v ++ drop (off + blen v) m /\ blen m' = blen m.
Proof.
  unfold store. intros H.
  destruct (0 <=? off) eqn:E1; [|discriminate].
  destruct (off + blen v <=? blen m) eqn:E2; [|discriminate].
  cbn in H. inversion H. pose proof (blen_nonneg v).
  repeat split; try lia.
  rewrite !blen_app, blen_take, blen_drop by lia. lia.
Qed.

Lemma realloc_inv al m n tmp :
  0 <= n -> cu_realloc al m n = Moved tmp ->
  blen tmp = n /\ (blen m <= n -> take (blen m) tmp = m).
Proof.
  unfold cu_realloc. intros Hn H.
  destruct (grants al n); [|destruct (_ && _); discriminate]. inversion H. clear H. split.
  - rewrite blen_app, blen_fresh.
    destruct (Z_le_gt_dec n (blen m)).
    + rewrite blen_take by lia. unfold blen in *. lia.
    + rewrite take_all by lia. unfold blen in *. lia.
  - intros Hle. pose proof (blen_nonneg m). rewrite (take_all n m) by lia.
    rewrite take_app_le by lia. apply take_all. lia.
Qed.

Lemma wrap_double_ge c : 0 <= c <= SIZE_MAX -> c <= wrap (c * 2) -> wrap (c * 2) = 2 * c.
Proof.
  unfold wrap, SIZE_MAX, SIZE_BITS. intros Hc Hle.
  destruct (Z_lt_ge_dec (c * 2) (2 ^ 64)) as [Hs | Hb].
  - rewrite Z.mod_small by lia. lia.
  - exfalso.
    assert (E : (c * 2) mod 2 ^ 64 = c * 2 - 2 ^ 64).
    { symmetry. apply Z.mod_unique with (q := 1); lia. }
    lia.
Qed.

(** ** Well-formed arrays *)

Lemma initialized_block a :
  initialized a ->
  exists m, data a = Some m /\
    blen m = item_size a * capacity a /\ blen m <= SIZE_MAX /\
    0 <= item_size a <= SIZE_MAX /\ 0 < capacity a <= SIZE_MAX /\
    0 <= length a <= capacity a.
Proof.
  unfold initialized. destruct (data a) as [m|]; [|contradiction].
  intros H. exists m. split; [reflexivity | exact H].
Qed.

Lemma initialized_well_typed a : initialized a -> well_typed a.
Proof.
  intros H. apply initialized_block in H.
  destruct H as (m & _ & _ & _ & Hi & Hc & Hl).
  unfold well_typed, size_t. lia.
Qed.

(** Offsets of items inside a well-formed array do not wrap. *)
Lemma item_offset a i :
  initialized a -> 0 <= i <= capacity a ->
  wrap (item_size a * i) = item_size a * i /\
  0 <= item_size a * i <= item_size a * capacity a.
Proof.
  intros H Hi. apply initialized_block in H.
  destruct H as (m & _ & Hb & Hmax & Hisz & Hc & Hl).
  assert (0 <= item_size a * i <= item_size a * capacity a) by nia.
  split; [apply wrap_small; lia | assumption].
Qed.

Lemma item_at_contents a i :
  initialized a -> 0 <= i < length a ->
  item_at a i = Some (take (item_size a) (drop (item_size a * i) (contents a))).
Proof.
  intros Hwf Hi. pose proof (initialized_block a Hwf) as (m & Hd & Hb & Hmax & Hisz & Hc & Hl).
  destruct (item_offset a i Hwf ltac:(lia)) as [Hw Hr].
  unfold item_at, cu_array_at, contents. rewrite Hd.
  destruct (capacity a =? 0) eqn:E0; [lia|].
  destruct (length a <=? i) eqn:E1; [lia|]. cbn [orb]. rewrite Hw.
  assert (Hend : item_size a * i + item_size a <= item_size a * length a) by nia.
  assert (Hlen : item_size a * length a <= blen m) by nia.
  rewrite load_ok by lia. f_equal.
  rewrite drop_take by lia. rewrite take_take by lia. reflexivity.
Qed.

(** The array a single-item write goes to is well formed when the write
    fits its block, and holds the same items. *)
Lemma room_initialized al a a1 m1 :
  initialized a -> room_for_one al a a1 -> data a1 = Some m1 ->
  item_size a * length a + item_size a <= blen m1 ->
  initialized a1 /\ contents a1 = contents a /\
  item_size a1 = item_size a /\ length a1 = length a /\ length a < capacity a1.
Proof.
  intros Hwf Hroom Hd1 Hfit.
  pose proof (initialized_block a Hwf) as (m & Hd & Hb & Hmax & Hisz & Hc & Hl).
  destruct Hroom as [[Hlt ->] | [Hfull Hg]].
  - repeat split; auto.
  - apply grow_cases in Hg.
    destruct Hg as [[E _] | [_ (m0 & tmp & Hd0 & _ & Hgt & Hre & E)]]; [discriminate|].
    inv E. cbn [data] in Hd1. inv Hd1. rewrite Hd in Hd0. inv Hd0.
    assert (Elen : length a = capacity a) by lia.
    assert (E2 : wrap (capacity a * 2) = 2 * capacity a)
      by (apply wrap_double_gt; lia).
    rewrite E2 in *.
    replace (item_size a * (2 * capacity a)) with (blen m0 * 2) in Hre by lia.
    apply realloc_inv in Hre; [|apply wrap_range]. destruct Hre as [Hbt Hkeep].
    assert (E3 : wrap (blen m0 * 2) = 2 * blen m0).
    { apply wrap_double_ge; [pose proof (blen_nonneg m0); lia|]. nia. }
    rewrite E3 in *.
    pose proof (wrap_range (blen m0 * 2)) as Hr. rewrite E3 in Hr.
    pose proof (wrap_range (capacity a * 2)) as Hr2. rewrite E2 in Hr2.
    pose proof (blen_nonneg m0) as Hnn.
    split; [|split].
    + unfold initialized. cbn [data item_size length capacity].
      repeat split; try lia.
    + unfold contents. cbn [data item_size length]. rewrite Hd.
      rewrite <- (take_take (item_size a * length a) (blen m0) m1) by nia.
      rewrite (Hkeep ltac:(lia)). reflexivity.
    + cbn [item_size length capacity]. repeat split; lia.
Qed.

Lemma memcpy_from_inv m d src n m' :
  cu_memcpy_from m (Some d) (Some src) n = Ret m' ->
  0 <= n <= blen src /\ 0 <= d /\ d + n <= blen m /\
  m' = take d m ++ take n src ++ drop (d + n) m /\ blen m' = blen m.
Proof.
  unfold cu_memcpy_from. intros H.
  apply from_bind in H. destruct H as (v & Hv & Hs).
  apply load_inv in Hv. destruct Hv as (_ & Hn & Hfit & -> & Hbv).
  apply store_inv in Hs. destruct Hs as (Hd & Hfit' & -> & Hb).
  rewrite Hbv in *. rewrite drop_zero in *. repeat split; auto; lia.
Qed.

(** Writing [v] right behind the items of a block appends it to them. *)
Lemma take_after_write m off v n :
  blen v = n -> 0 <= off -> off + n <= blen m ->
  take (off + n) (take off m ++ v ++ drop (off + n) m) = take off m ++ v.
Proof.
  intros <- Hoff Hfit. pose proof (blen_nonneg v).
  rewrite take_app_ge by (rewrite blen_take; lia).
  rewrite blen_take by lia.
  replace (off + blen v - off) with (blen v) by lia.
  rewrite take_app_le by lia. rewrite (take_all (blen v) v) by lia. reflexivity.
Qed.

Lemma append_spec al a item a' :
  initialized a ->
  cu_array_append al (Some a) item = Ret (0, Some a') ->
  exists src, item = Some src /\ item_size a <= blen src /\
    initialized a' /\ item_size a' = item_size a /\ length a' = length a + 1 /\
    contents a' = contents a ++ take (item_size a) src.
Proof.
  intros Hwf Happ. apply append_cases in Happ.
  destruct Happ as [[E _] | [_ (src & a1 & m & m' & -> & Hroom & Hd1 & Hcpy & E)]];
    [discriminate|].
  inv E. exists src. split; [reflexivity|].
  pose proof (room_for_one_fields _ _ _ Hroom) as (Ei & El & _ & _).
  rewrite Ei, El in *.
  pose proof (initialized_block a Hwf) as (m0 & Hd & Hb & Hmax & Hisz & Hc & Hl).
  destruct (item_offset a (length a) Hwf ltac:(lia)) as [Hw Hr]. rewrite Hw in Hcpy.
  apply memcpy_from_inv in Hcpy. destruct Hcpy as (Hn & _ & Hfit & -> & Hbm).
  destruct (room_initialized al a a1 m Hwf Hroom Hd1 Hfit) as (Hwf1 & Hc1 & _ & _ & Hlt).
  pose proof (initialized_block a1 Hwf1) as (m1 & Hd1' & Hb1 & Hmax1 & Hisz1 & Hcap1 & Hl1).
  rewrite Hd1 in Hd1'. inv Hd1'. rewrite Ei in *.
  assert (Hw1 : wrap (length a + 1) = length a + 1) by (apply wrap_small; lia).
  rewrite Hw1. split; [lia|].
  assert (Hbv : blen (take (item_size a) src) = item_size a) by (apply blen_take; lia).
  split; [|split; [|split]]; cbn [item_size length]; try lia.
  - unfold initialized. cbn [data item_size length capacity].
    repeat split; try lia.
  - unfold contents at 1. cbn [data item_size length].
    rewrite <- Hc1. unfold contents. rewrite Hd1, Ei, El.
    replace (item_size a * (length a + 1))
      with (item_size a * length a + item_size a) by lia.
    apply take_after_write; lia.
Qed.

(** ** Append *)

Lemma append_items al a item a' :
  initialized a ->
  cu_array_append al (Some a) item = Ret (0, Some a') ->
  exists src, item = Some src /\ item_size a <= blen src /\
    initialized a' /\ item_size a' = item_size a /\ length a' = length a + 1 /\
    item_at a' (length a) = Some (take (item_size a) src) /\
    (forall i, 0 <= i < length a -> item_at a' i = item_at a i).
Proof.
  intros Hwf Happ.
  destruct (append_spec al a item a' Hwf Happ) as (src & -> & Hsrc & Hwf' & Ei & El & Hc).
  exists src. repeat split; auto.
  - pose proof (initialized_block a Hwf) as (m & Hd & Hb & Hmax & Hisz & Hcap & Hl).
    assert (Hbc : blen (contents a) = item_size a * length a).
    { unfold contents. rewrite Hd. apply blen_take. nia. }
    rewrite item_at_contents by (auto; lia).
    rewrite Hc, Ei. rewrite drop_app_ge by lia.
    rewrite Hbc, Z.sub_diag, drop_zero.
    rewrite take_take by lia. reflexivity.
  - intros i Hi.
    pose proof (initialized_block a Hwf) as (m & Hd & Hb & Hmax & Hisz & Hcap & Hl).
    assert (Hbc : blen (contents a) = item_size a * length a).
    { unfold contents. rewrite Hd. apply blen_take. nia. }
    rewrite !item_at_contents by (auto; lia).
    rewrite Hc, Ei.
    assert (item_size a * i + item_size a <= item_size a * length a) by nia.
    assert (0 <= item_size a * i) by nia.
    rewrite drop_app_le by lia.
    rewrite take_app_le; [reflexivity|].
    rewrite blen_drop by lia. lia.
Qed.

(** C6. After a sequence of N Appends that all succeed on an initialized
    array of length n, the length is n + N (one more per call: every
    prefix of the sequence is such a sequence), the items that were there
    are unchanged, and the item at index n + i holds the [item_size]
    bytes behind the i-th appended pointer, for all i < N; on a freshly
    initialized array n = 0 and that index is i. *)
Theorem append_sequence :
  forall heap items a a',
    initialized a ->
    append_all heap (Some a) items = Ret (0, Some a') ->
    initialized a' /\ item_size a' = item_size a /\
    length a' = length a + Z.of_nat (List.length items) /\
    (forall i, 0 <= i < length a -> item_at a' i = item_at a i) /\
    (forall i item, nth_error items i = Some item ->
       exists src, item = Some src /\ item_size a <= blen src /\
         item_at a' (length a + Z.of_nat i) = Some (take (item_size a) src)).
Proof.
  intros heap items. induction items as [|item rest IH]; intros a a' Hwf Hall.
  - cbn in Hall. inv Hall. cbn [List.length]. repeat split; auto; try lia.
    intros i item Hn. destruct i; discriminate.
  - cbn [append_all] in Hall. apply from_bind in Hall.
    destruct Hall as ([r arr1] & Happ & Hrest). cbn [fst snd] in Hrest.
    destruct (r =? 0) eqn:Er; [|inv Hrest; discriminate].
    assert (r = 0) by lia. subst r.
    destruct arr1 as [a1|].
    2:{ apply append_cases in Happ.
        destruct Happ as [[? _] | [_ (? & ? & ? & ? & _ & _ & _ & _ & ?)]]; discriminate. }
    destruct (append_items _ a item a1 Hwf Happ)
      as (src & -> & Hsrc & Hwf1 & Ei1 & El1 & Hnew & Hold).
    destruct (IH a1 a' Hwf1 Hrest) as (Hwf' & Ei & El & Hkeep & Hnth).
    pose proof (initialized_block a Hwf) as (m & _ & _ & _ & _ & _ & Hl).
    cbn [List.length]. repeat split; auto; try lia.
    + intros i Hi. rewrite Hkeep by lia. apply Hold. exact Hi.
    + intros i item Hn. destruct i as [|i]; cbn in Hn.
      * inv Hn. exists src. repeat split; auto.
        rewrite Z.add_0_r. rewrite Hkeep by lia. exact Hnew.
      * destruct (Hnth i item Hn) as (src' & -> & Hs' & Hat).
        exists src'. rewrite Ei1 in *. repeat split; auto.
        rewrite <- Hat. f_equal. lia.
Qed.

Lemma blen_contents a :
  initialized a -> blen (contents a) = item_size a * length a.
Proof.
  intros Hwf.
  pose proof (initialized_block a Hwf) as (m & Hd & Hb & Hmax & Hisz & Hcap & Hl).
  unfold contents. rewrite Hd. apply blen_take. nia.
Qed.






Lemma empty_int_array_initialized : initialized empty_int_array.
Proof.
  unfold initialized. cbn [data item_size length capacity empty_int_array].
  rewrite blen_fresh. unfold SIZE_MAX, SIZE_BITS, CU_ARRAY_DEFAULT_SIZE. lia.
Qed.

Lemma full_byte_array_initialized : initialized full_byte_array.
Proof.
  unfold initialized. cbn [data item_size length capacity full_byte_array].
  unfold blen. rewrite repeat_length. unfold SIZE_MAX, SIZE_BITS. lia.
Qed.

Lemma append_sequence_witness :
  exists a',
    append_all (fun _ => plenty) (Some empty_int_array)
               [Some (int_bytes 7); Some (int_bytes 8)] = Ret (0, Some a') /\
    length a' = 2 /\ item_at a' 1 = Some (int_bytes 8).
Proof.
  eexists. split; [vm_compute; reflexivity|].
  destruct (append_sequence (fun _ => plenty) [Some (int_bytes 7); Some (int_bytes 8)]
              empty_int_array _ empty_int_array_initialized eq_refl)
    as (_ & _ & Hlen & _ & Hnth).
  split; [exact Hlen|].
  destruct (Hnth 1%nat (Some (int_bytes 8)) eq_refl) as (src & Es & _ & Hat).
  inversion Es. subst src. exact Hat.
Defined.

(** ** Extend *)



(** ** Items of a block *)

Lemma slice_store_same m off v :
  0 <= off -> off + blen v <= blen m ->
  take (blen v) (drop off (take off m ++ v ++ drop (off + blen v) m)) = v.
Proof.
  intros Hoff Hfit. pose proof (blen_nonneg v).
  rewrite drop_app_ge by (rewrite blen_take; lia).
  rewrite blen_take by lia. rewrite Z.sub_diag, drop_zero.
  rewrite take_app_le by lia. apply take_all. lia.
Qed.

Lemma slice_store_before m off x o n :
  0 <= o -> 0 <= n -> o + n <= off -> off <= blen m ->
  take n (drop o (take off m ++ x)) = take n (drop o m).
Proof.
  intros Ho Hn Hend Hoff.
  rewrite drop_app_le by (rewrite blen_take; lia).
  rewrite take_app_le.
  - rewrite drop_take by lia. apply take_take. lia.
  - rewrite blen_drop; rewrite blen_take; lia.
Qed.

Lemma slice_store_after m off v o n :
  0 <= off -> off + blen v <= o -> 0 <= n -> o + n <= blen m ->
  take n (drop o (take off m ++ v ++ drop (off + blen v) m)) = take n (drop o m).
Proof.
  intros Hoff Hafter Hn Hend. pose proof (blen_nonneg v).
  rewrite drop_app_ge by (rewrite blen_take; lia).
  rewrite blen_take by lia.
  rewrite drop_app_ge by lia.
  rewrite drop_drop by lia.
  do 2 f_equal. lia.
Qed.

(** Items of a block after one item-sized store at the place of item [i]. *)
Lemma item_store m dat isz len i v m' :
  region m dat isz len -> 0 <= i < len -> blen v = isz ->
  store m (dat + isz * i) v = Ret m' ->
  blen m' = blen m /\ nth_item m' dat isz i = v /\
  (forall k, 0 <= k < len -> k <> i -> nth_item m' dat isz k = nth_item m dat isz k).
Proof.
  intros (Hdat & Hisz & Hlen & Hfit & Hmax) Hi Hbv Hst.
  apply store_inv in Hst. destruct Hst as (Hoff & Hin & -> & Hb).
  split; [exact Hb|]. split.
  - unfold nth_item. rewrite <- Hbv at 1. apply slice_store_same; lia.
  - intros k Hk Hne. unfold nth_item.
    assert (Hk_end : dat + isz * k + isz <= blen m) by nia.
    destruct (Z_lt_ge_dec k i).
    + apply slice_store_before; try nia.
    + apply slice_store_after; try nia.
Qed.

Lemma load_item m dat isz len k :
  region m dat isz len -> 0 <= k < len ->
  load m (dat + wrap (isz * k)) isz = Ret (nth_item m dat isz k) /\
  wrap (isz * k) = isz * k.
Proof.
  intros (Hdat & Hisz & Hlen & Hfit & Hmax) Hk.
  assert (Hw : wrap (isz * k) = isz * k) by (apply wrap_small; nia).
  rewrite Hw. split; [|reflexivity].
  apply load_ok; nia.
Qed.

Lemma blen_item m dat isz len k :
  region m dat isz len -> 0 <= k < len -> blen (nth_item m dat isz k) = isz.
Proof.
  intros (Hdat & Hisz & Hlen & Hfit & Hmax) Hk. unfold nth_item.
  apply blen_take. rewrite blen_drop; nia.
Qed.

Lemma region_same_size m m' dat isz len :
  blen m' = blen m -> region m dat isz len -> region m' dat isz len.
Proof.
  unfold region. intros ->. auto.
Qed.

(** ** Quicksort: termination and bounds *)

Lemma safe_bind {A B} isz (P : A -> Prop) (Q : B -> Prop) r (k : A -> outcome B) :
  safe isz P r -> (forall x, P x -> safe isz Q (k x)) -> safe isz Q (bind r k).
Proof.
  destruct r as [x | f | | x]; cbn; intros H Hk.
  - apply Hk. exact H.
  - destruct f; auto.
  - contradiction.
  - contradiction.
Qed.

Lemma safe_weaken {A} isz (P Q : A -> Prop) r :
  safe isz P r -> (forall x, P x -> Q x) -> safe isz Q r.
Proof.
  destruct r as [x | f | | x]; cbn; auto.
Qed.

Section QsortSafety.

Variable compare : bytes -> bytes -> Z.
Hypothesis compare_diag : forall x, compare x x = 0.

Variables dat isz len : Z.

Lemma compare_at_items m p q :
  region m dat isz len -> 0 <= p < len -> 0 <= q < len ->
  compare_at compare m isz (dat + wrap (isz * p)) (dat + wrap (isz * q))
    = Ret (compare (nth_item m dat isz p) (nth_item m dat isz q)).
Proof.
  intros Hreg Hp Hq. unfold compare_at.
  destruct (load_item m dat isz len p Hreg Hp) as [-> _].
  destruct (load_item m dat isz len q Hreg Hq) as [-> _].
  reflexivity.
Qed.

(** The upward scan stops at the latest at an item that is not below
    the pivot item. *)
Lemma scan_up_stops m p s :
  region m dat isz len -> 0 <= p < len -> s < len ->
  ~ compare (nth_item m dat isz s) (nth_item m dat isz p) < 0 ->
  forall fuel i,
    0 <= i <= s -> s - i < Z.of_nat fuel ->
    exists i',
      scan_up compare fuel m dat isz (dat + wrap (isz * p)) i = Ret i' /\
      i <= i' <= s /\
      ~ compare (nth_item m dat isz i') (nth_item m dat isz p) < 0.
Proof.
  intros Hreg Hp Hs Hstop fuel.
  induction fuel as [|fuel IH]; intros i Hi Hfuel; [lia|].
  cbn [scan_up]. rewrite compare_at_items by (auto; lia). cbn [bind].
  destruct (compare (nth_item m dat isz i) (nth_item m dat isz p) <? 0) eqn:Hc.
  - assert (i <> s) by (intros ->; lia).
    destruct Hreg as (_ & _ & Hlen & _).
    rewrite (wrap_small (i + 1)) by lia.
    destruct (IH (i + 1) ltac:(lia) ltac:(lia)) as (i' & Hrun & Hrange & Hnot).
    exists i'. repeat split; auto; lia.
  - exists i. repeat split; auto; lia.
Qed.

(** The downward scan stops at the latest at an item that is not above
    the pivot item. *)
Lemma scan_down_stops m p s :
  region m dat isz len -> 0 <= p < len -> 0 <= s ->
  ~ compare (nth_item m dat isz p) (nth_item m dat isz s) < 0 ->
  forall fuel j,
    s <= j < len -> j - s < Z.of_nat fuel ->
    exists j',
      scan_down compare fuel m dat isz (dat + wrap (isz * p)) j = Ret j' /\
      s <= j' <= j /\
      ~ compare (nth_item m dat isz p) (nth_item m dat isz j') < 0.
Proof.
  intros Hreg Hp Hs Hstop fuel.
  induction fuel as [|fuel IH]; intros j Hj Hfuel; [lia|].
  cbn [scan_down]. rewrite compare_at_items by (auto; lia). cbn [bind].
  destruct (compare (nth_item m dat isz p) (nth_item m dat isz j) <? 0) eqn:Hc.
  - assert (j <> s) by (intros ->; lia).
    destruct Hreg as (_ & _ & Hlen & _).
    rewrite (wrap_small (j - 1)) by lia.
    destruct (IH (j - 1) ltac:(lia) ltac:(lia)) as (j' & Hrun & Hrange & Hnot).
    exists j'. repeat split; auto; lia.
  - exists j. repeat split; auto; lia.
Qed.

(** Exchanging two different items of the array. *)
Lemma swap_items_exchanges m i j :
  region m dat isz len -> 0 <= i -> i < j -> j < len ->
  safe isz
    (fun m' =>
       blen m' = blen m /\
       nth_item m' dat isz i = nth_item m dat isz j /\
       nth_item m' dat isz j = nth_item m dat isz i /\
       (forall k, 0 <= k < len -> k <> i -> k <> j ->
          nth_item m' dat isz k = nth_item m dat isz k))
    (swap_items m isz (dat + wrap (isz * i)) (dat + wrap (isz * j))).
Proof.
  intros Hreg Hi Hij Hj. unfold swap_items.
  destruct (CU_ARRAY_MAX_ITEM_SIZE <? isz) eqn:Hbig; [cbn; lia|].
  destruct (load_item m dat isz len i Hreg ltac:(lia)) as [Hli Hwi].
  destruct (load_item m dat isz len j Hreg ltac:(lia)) as [Hlj Hwj].
  rewrite Hli. cbn [bind]. unfold cu_memcpy_within.
  rewrite Hlj. rewrite Hwi, Hwj in *.
  pose proof Hreg as (Hdat & Hisz & Hlen & Hfit & Hmax).
  assert (Hdisj : dat + isz * i + isz <= dat + isz * j) by nia.
  destruct (dat + isz * i + isz <=? dat + isz * j) eqn:Hd; [|lia].
  cbn [orb bind].
  pose proof (blen_item m dat isz len i Hreg ltac:(lia)) as Hbi.
  pose proof (blen_item m dat isz len j Hreg ltac:(lia)) as Hbj.
  destruct (store m (dat + isz * i) (nth_item m dat isz j)) as [m1 | f | | x] eqn:Hs1.
  2,3,4: (unfold store in Hs1; rewrite Hbj in Hs1;
        destruct (0 <=? dat + isz * i) eqn:E1; [|nia];
        destruct (dat + isz * i + isz <=? blen m) eqn:E2; [|nia];
        discriminate).
  destruct (item_store m dat isz len i _ m1 Hreg ltac:(lia) Hbj Hs1) as (Hb1 & Hi1 & Hk1).
  pose proof (region_same_size m m1 dat isz len Hb1 Hreg) as Hreg1.
  cbn [bind].
  destruct (store m1 (dat + isz * j) (nth_item m dat isz i)) as [m2 | f | | x] eqn:Hs2.
  2,3,4: (unfold store in Hs2; rewrite Hbi in Hs2;
        destruct (0 <=? dat + isz * j) eqn:E1; [|nia];
        destruct (dat + isz * j + isz <=? blen m1) eqn:E2; [|nia];
        discriminate).
  destruct (item_store m1 dat isz len j _ m2 Hreg1 ltac:(lia) Hbi Hs2) as (Hb2 & Hj2 & Hk2).
  cbn [safe]. repeat split.
  - lia.
  - rewrite Hk2 by lia. exact Hi1.
  - exact Hj2.
  - intros k Hk Hki Hkj. rewrite Hk2 by lia. apply Hk1; lia.
Qed.

(** The partition loop, from any state in which an item not below the
    pivot item lies at or after [i] (at [si]) and one not above it at or
    before [j] (at [sj]): it ends, inside the array, with a split point
    strictly between the two ends. *)
Lemma partition_safe p scan_fuel :
  0 <= p < len -> len <= Z.of_nat scan_fuel ->
  forall fuel m i j si sj,
    region m dat isz len ->
    0 <= i <= si -> si < len -> 0 <= sj <= j -> j < len ->
    ~ compare (nth_item m dat isz si) (nth_item m dat isz p) < 0 ->
    ~ compare (nth_item m dat isz p) (nth_item m dat isz sj) < 0 ->
    1 <= i \/ (si <= sj /\ 1 <= si) ->
    1 <= Z.of_nat fuel -> j - i + 2 <= Z.of_nat fuel ->
    safe isz
      (fun r => blen (fst r) = blen m /\ 1 <= snd r <= len - 1)
      (partition compare fuel scan_fuel m dat isz (dat + wrap (isz * p)) i j).
Proof.
  intros Hp Hscan fuel.
  induction fuel as [|fuel IH];
    intros m i j si sj Hreg Hi Hsi Hj Hjl Hup Hdown Hfirst Hone Hfuel; [lia|].
  cbn [partition].
  destruct (scan_up_stops m p si Hreg Hp Hsi Hup scan_fuel i Hi ltac:(lia))
    as (i1 & -> & Hi1 & Hstop_i).
  destruct (scan_down_stops m p sj Hreg Hp ltac:(lia) Hdown scan_fuel j ltac:(lia) ltac:(lia))
    as (j1 & -> & Hj1 & Hstop_j).
  cbn [bind].
  destruct (j1 <=? i1) eqn:Hcross.
  - cbn [safe fst snd]. split; [reflexivity | lia].
  - eapply safe_bind.
    + apply (swap_items_exchanges m i1 j1 Hreg); lia.
    + cbn beta. intros m' (Hb & Hxi & Hxj & Hxk).
      pose proof Hreg as (_ & _ & Hlen & _).
      rewrite (wrap_small (i1 + 1)), (wrap_small (j1 - 1)) by lia.
      eapply safe_weaken.
      * apply (IH m' (i1 + 1) (j1 - 1) j1 i1); try lia.
        -- apply (region_same_size m); assumption.
        -- rewrite Hxj.
           destruct (Z.eq_dec p i1) as [-> | Hpi]; [rewrite Hxi; exact Hstop_j|].
           destruct (Z.eq_dec p j1) as [-> | Hpj]; [rewrite Hxj, compare_diag; lia|].
           rewrite Hxk by lia. exact Hstop_i.
        -- rewrite Hxi.
           destruct (Z.eq_dec p i1) as [-> | Hpi]; [rewrite Hxi, compare_diag; lia|].
           destruct (Z.eq_dec p j1) as [-> | Hpj]; [rewrite Hxj; exact Hstop_i|].
           rewrite Hxk by lia. exact Hstop_j.
      * cbn beta. intros r [Hbr Hr]. split; [congruence | exact Hr].
Qed.

End QsortSafety.

(** Every call of the recursion ends, inside the part of the block it
    was given. *)
Lemma qsort_internal_safe compare isz :
  (forall x, compare x x = 0) ->
  forall fuel m dat len,
    region m dat isz len -> len + 2 <= Z.of_nat fuel ->
    safe isz (fun m' => blen m' = blen m)
         (__cu_array_qsort_internal compare fuel m dat isz len).
Proof.
  intros Hdiag fuel.
  induction fuel as [|fuel IH]; intros m dat len Hreg Hfuel.
  - destruct Hreg as (_ & _ & Hlen & _). lia.
  - cbn [__cu_array_qsort_internal].
    destruct (len <? 2) eqn:Hsmall; [reflexivity|].
    pose proof Hreg as (Hdat & Hisz & Hlen & Hfit & Hmax).
    assert (Hp : 1 <= len / 2 <= len - 1).
    { split.
      - apply Z.div_le_lower_bound; lia.
      - assert (len / 2 < len) by (apply Z.div_lt_upper_bound; lia). lia. }
    rewrite (wrap_small (len - 1)) by lia.
    eapply safe_bind.
    + apply (partition_safe compare Hdiag dat isz len (len / 2) fuel
               ltac:(lia) ltac:(lia) fuel m 0 (len - 1) (len / 2) (len / 2));
        try assumption; try lia; rewrite Hdiag; lia.
    + cbn beta. intros [m1 i] [Hb1 Hi]. cbn [fst snd] in Hb1, Hi.
      eapply safe_bind.
      * apply IH; [|lia].
        apply (region_same_size m); [assumption|].
        unfold region. repeat split; try lia; nia.
      * cbn beta. intros m2 Hb2.
        assert (Hw : wrap (isz * i) = isz * i) by (apply wrap_small; nia).
        rewrite Hw, (wrap_small (len - i)) by lia.
        eapply safe_weaken.
        -- apply IH; [|lia].
           apply (region_same_size m); [congruence|].
           unfold region. repeat split; try lia; nia.
        -- cbn beta. intros m3 Hb3. congruence.
Qed.

(** ** Quicksort: bytes behind the block play no part *)

Lemma load_frame m x off n v :
  load m off n = Ret v -> load (m ++ x) off n = Ret v.
Proof.
  intros H. apply load_inv in H. destruct H as (Hoff & Hn & Hfit & -> & _).
  rewrite load_ok by (rewrite ?blen_app; pose proof (blen_nonneg x); lia).
  rewrite drop_app_le by lia.
  rewrite take_app_le; [reflexivity|]. rewrite blen_drop; lia.
Qed.

Lemma store_frame m x off v m' :
  store m off v = Ret m' -> store (m ++ x) off v = Ret (m' ++ x).
Proof.
  intros H. apply store_inv in H. destruct H as (Hoff & Hfit & -> & _).
  pose proof (blen_nonneg v). pose proof (blen_nonneg x).
  rewrite store_ok by (rewrite ?blen_app; lia).
  rewrite take_app_le by lia. rewrite drop_app_le by lia.
  rewrite <- !app_assoc. reflexivity.
Qed.

Section Frame.

Variable compare : bytes -> bytes -> Z.
Variable x : bytes.

Lemma compare_at_frame m isz p q c :
  compare_at compare m isz p q = Ret c ->
  compare_at compare (m ++ x) isz p q = Ret c.
Proof.
  unfold compare_at. intros H.
  apply from_bind in H. destruct H as (u & Hu & H).
  apply from_bind in H. destruct H as (w & Hw & H).
  rewrite (load_frame _ _ _ _ _ Hu), (load_frame _ _ _ _ _ Hw). exact H.
Qed.

Lemma scan_up_frame m dat isz pivot fuel :
  forall i i',
    scan_up compare fuel m dat isz pivot i = Ret i' ->
    scan_up compare fuel (m ++ x) dat isz pivot i = Ret i'.
Proof.
  induction fuel as [|fuel IH]; intros i i' H; [discriminate|].
  cbn [scan_up] in *. apply from_bind in H. destruct H as (c & Hc & H).
  rewrite (compare_at_frame _ _ _ _ _ Hc). cbn [bind].
  destruct (c <? 0); [apply IH|]; exact H.
Qed.

Lemma scan_down_frame m dat isz pivot fuel :
  forall j j',
    scan_down compare fuel m dat isz pivot j = Ret j' ->
    scan_down compare fuel (m ++ x) dat isz pivot j = Ret j'.
Proof.
  induction fuel as [|fuel IH]; intros j j' H; [discriminate|].
  cbn [scan_down] in *. apply from_bind in H. destruct H as (c & Hc & H).
  rewrite (compare_at_frame _ _ _ _ _ Hc). cbn [bind].
  destruct (c <? 0); [apply IH|]; exact H.
Qed.

Lemma swap_items_frame m isz p q m' :
  swap_items m isz p q = Ret m' ->
  swap_items (m ++ x) isz p q = Ret (m' ++ x).
Proof.
  unfold swap_items, cu_memcpy_within. intros H.
  destruct (CU_ARRAY_MAX_ITEM_SIZE <? isz); [discriminate|].
  apply from_bind in H. destruct H as (tmp & Ht & H).
  apply from_bind in H. destruct H as (m1 & H1 & H).
  destruct ((p + isz <=? q) || (q + isz <=? p)); [|discriminate].
  apply from_bind in H1. destruct H1 as (v & Hv & Hs).
  rewrite (load_frame _ _ _ _ _ Ht), (load_frame _ _ _ _ _ Hv). cbn [bind].
  rewrite (store_frame _ _ _ _ _ Hs). cbn [bind].
  apply store_frame. exact H.
Qed.

Lemma partition_frame dat isz pivot scan_fuel fuel :
  forall m i j m' i',
    partition compare fuel scan_fuel m dat isz pivot i j = Ret (m', i') ->
    partition compare fuel scan_fuel (m ++ x) dat isz pivot i j = Ret (m' ++ x, i').
Proof.
  induction fuel as [|fuel IH]; intros m i j m' i' H; [discriminate|].
  cbn [partition] in *.
  apply from_bind in H. destruct H as (i1 & Hi1 & H).
  apply from_bind in H. destruct H as (j1 & Hj1 & H).
  rewrite (scan_up_frame _ _ _ _ _ _ _ Hi1), (scan_down_frame _ _ _ _ _ _ _ Hj1).
  cbn [bind]. destruct (j1 <=? i1).
  - inv H. reflexivity.
  - apply from_bind in H. destruct H as (m1 & Hs & H).
    rewrite (swap_items_frame _ _ _ _ _ Hs). cbn [bind]. apply IH. exact H.
Qed.

Lemma qsort_internal_frame isz fuel :
  forall m dat len m',
    __cu_array_qsort_internal compare fuel m dat isz len = Ret m' ->
    __cu_array_qsort_internal compare fuel (m ++ x) dat isz len = Ret (m' ++ x).
Proof.
  induction fuel as [|fuel IH]; intros m dat len m' H; [discriminate|].
  cbn [__cu_array_qsort_internal] in *.
  destruct (len <? 2); [inv H; reflexivity|].
  apply from_bind in H. destruct H as ([m1 i] & Hp & H).
  rewrite (partition_frame _ _ _ _ _ _ _ _ _ _ Hp). cbn [bind].
  apply from_bind in H. destruct H as (m2 & H2 & H).
  rewrite (IH _ _ _ _ H2). cbn [bind]. apply IH. exact H.
Qed.

End Frame.

Lemma compare_unsigned_total_order : total_order compare_unsigned.
Proof.
  split; unfold compare_unsigned; intros; lia.
Qed.

Lemma unsorted_ints_initialized : initialized unsorted_ints.
Proof.
  vm_compute. intuition discriminate.
Qed.

Lemma initialized_region a m :
  initialized a -> data a = Some m ->
  region m 0 (item_size a) (length a) /\
  region (take (item_size a * length a) m) 0 (item_size a) (length a) /\
  0 <= item_size a * length a <= blen m.
Proof.
  intros Hwf Hd.
  pose proof (initialized_block a Hwf) as (m0 & Hd0 & Hb & Hmax & Hisz & Hcap & Hl).
  rewrite Hd in Hd0. inv Hd0.
  assert (0 <= item_size a * length a <= blen m0) by nia.
  unfold region. rewrite blen_take by lia. repeat split; lia.
Qed.

Lemma wide_items_initialized : initialized wide_items.
Proof. vm_compute. intuition discriminate. Qed.

(** C10, as stated, covers every initialized array.  The array of two
    items of 200 bytes, the larger one first, is initialized; Sort has
    to exchange its two items, and the first [cu_memcpy] of the exchange
    copies 200 bytes into the static [swap_buffer] of
    [CU_ARRAY_MAX_ITEM_SIZE = 128] bytes: the run leaves defined
    behaviour there instead of ending with every access in bounds. *)
Lemma qsort_wide_items_overflow_swap_buffer :
  initialized wide_items /\ total_order compare_unsigned /\
  item_size wide_items = 200 /\ CU_ARRAY_MAX_ITEM_SIZE = 128 /\
  cu_array_qsort compare_unsigned 4 (Some wide_items) = Fault ScratchOverflow.
Proof.
  split; [exact wide_items_initialized|].
  split; [exact compare_unsigned_total_order|].
  split; [reflexivity|]. split; [reflexivity|]. vm_compute. reflexivity.
Qed.

(** C10, amended.  For every initialized array and every comparator
    consistent with a total order, Sort with fuel [length + 2] or more
    ends: it never runs out of fuel, never reads or writes outside the
    block and never passes a null pointer.  With items of at most
    [CU_ARRAY_MAX_ITEM_SIZE] bytes it returns 0 and an array with the
    same fields.  With larger items it does so as well when no two
    items have to be exchanged; otherwise the run stops at the first
    exchange, which copies [item_size] bytes into the static buffer of
    [CU_ARRAY_MAX_ITEM_SIZE] bytes.  The recursion touches nothing but
    the items with index in [0, length): run on a block that consists of
    those items alone it ends in the same way, and the run on the whole
    block returns its result followed by the untouched rest of the
    block. *)
Theorem qsort_terminates_in_bounds :
  forall compare a fuel,
    total_order compare -> initialized a -> length a + 2 <= Z.of_nat fuel ->
    safe (item_size a)
      (fun r => exists a',
         r = (0, Some a') /\ initialized a' /\ item_size a' = item_size a /\
         length a' = length a /\ capacity a' = capacity a)
      (cu_array_qsort compare fuel (Some a)) /\
    (forall m, data a = Some m ->
       safe (item_size a)
         (fun s =>
            blen s = item_size a * length a /\
            __cu_array_qsort_internal compare fuel m 0 (item_size a) (length a)
              = Ret (s ++ drop (item_size a * length a) m))
         (__cu_array_qsort_internal compare fuel (take (item_size a * length a) m)
            0 (item_size a) (length a))) /\
    (item_size a <= CU_ARRAY_MAX_ITEM_SIZE ->
     exists a', cu_array_qsort compare fuel (Some a) = Ret (0, Some a')).
Proof.
  intros compare a fuel Hcmp Hwf Hfuel.
  pose proof (compare_refl compare Hcmp) as Hdiag.
  pose proof (initialized_block a Hwf) as (m & Hd & Hb & Hmax & Hisz & Hcap & Hl).
  destruct (initialized_region a m Hwf Hd) as (Hreg & Hreg' & Hrange).
  assert (Hcall :
    safe (item_size a)
      (fun r => exists a',
         r = (0, Some a') /\ initialized a' /\ item_size a' = item_size a /\
         length a' = length a /\ capacity a' = capacity a)
      (cu_array_qsort compare fuel (Some a))).
  { unfold cu_array_qsort. rewrite Hd.
    destruct (capacity a =? 0) eqn:E0; [lia|].
    eapply safe_bind.
    - apply (qsort_internal_safe compare (item_size a) Hdiag fuel m 0 (length a) Hreg Hfuel).
    - cbn beta. intros m' Hb'. cbn [safe]. eexists. split; [reflexivity|].
      unfold initialized. cbn [data item_size length capacity].
      repeat split; lia. }
  split; [exact Hcall|]. split.
  - intros m0 Hd0. rewrite Hd in Hd0. inv Hd0.
    pose proof (qsort_internal_safe compare (item_size a) Hdiag fuel _ 0 (length a)
                  Hreg' Hfuel) as Hsafe.
    destruct (__cu_array_qsort_internal compare fuel (take (item_size a * length a) m0)
                0 (item_size a) (length a)) as [s | f | | s] eqn:Hrun; cbn [safe] in *;
      [|exact Hsafe|exact Hsafe|contradiction].
    split; [rewrite Hsafe; apply blen_take; lia|].
    rewrite <- (take_drop (item_size a * length a) m0) at 1.
    apply qsort_internal_frame. exact Hrun.
  - intros Hsmall.
    destruct (cu_array_qsort compare fuel (Some a)) as [r | f | | r]; cbn [safe] in Hcall.
    + destruct Hcall as (a' & -> & _). exists a'. reflexivity.
    + destruct f; try contradiction. lia.
    + contradiction.
    + contradiction.
Qed.

Lemma qsort_terminates_in_bounds_witness :
  exists a', cu_array_qsort compare_unsigned 6 (Some unsorted_ints) = Ret (0, Some a').
Proof.
  apply (qsort_terminates_in_bounds compare_unsigned unsorted_ints 6
           compare_unsigned_total_order unsorted_ints_initialized).
  - cbn. lia.
  - cbn. unfold CU_ARRAY_MAX_ITEM_SIZE. lia.
Defined.

(** ** Sort *)

(** C1 fails on the code.  The array of [int] 3, 2, 0, 1, built by
    Initialize and Extend, is initialized; Sort returns 0 on it, with
    [cu_compare_int] as with a comparator that is a total order, and
    leaves 0, 2, 1, 3: the items at indices 1 and 2 are out of order.
    The first exchange moves the item behind the [pivot] pointer, and
    the scans go on comparing against the item that took its place. *)
Theorem qsort_leaves_unsorted :
  int_array [3; 2; 0; 1] = Ret (0, Some unsorted_ints) /\
  initialized unsorted_ints /\
  total_order compare_unsigned /\
  exists a',
    cu_array_qsort cu_compare_int 6 (Some unsorted_ints) = Ret (0, Some a') /\
    cu_array_qsort compare_unsigned 6 (Some unsorted_ints) = Ret (0, Some a') /\
    read_ints (Ret (0, Some a')) = [0; 2; 1; 3] /\
    ~ sorted cu_compare_int a' /\ ~ sorted compare_unsigned a'.
Proof.
  split; [vm_compute; reflexivity|].
  split; [exact unsorted_ints_initialized|].
  split; [exact compare_unsigned_total_order|].
  eexists. split; [vm_compute; reflexivity|].
  split; [vm_compute; reflexivity|].
  split; [vm_compute; reflexivity|].
  split; intros Hsorted;
    destruct (Hsorted 1 ltac:(cbn; lia)) as (x & y & Hx & Hy & Hle);
    vm_compute in Hx, Hy; inv Hx; inv Hy; vm_compute in Hle; apply Hle; reflexivity.
Qed.

(** ** Insert and RemoveAt *)

(** C2 fails on the code.  On the array of [int] 1, 2, 3, Insert at
    position 3 (append at the end) and at position 2 (before the last
    item) pass a null pointer to [cu_memmove]: [cu_array_at] returns
    null for every index that is not below [length], and Insert asks it
    for [pos + 1] and [pos].  Insert at positions 0 and 1 works. *)
Theorem insert_at_end_faults :
  initialized three_ints /\ read_ints (Ret (0, Some three_ints)) = [1; 2; 3] /\
  cu_array_insert plenty (Some three_ints) (Some (int_bytes 9)) 3 = Fault NullPointer /\
  cu_array_insert plenty (Some three_ints) (Some (int_bytes 9)) 2 = Fault NullPointer /\
  read_ints (cu_array_insert plenty (Some three_ints) (Some (int_bytes 9)) 1)
    = [1; 9; 2; 3] /\
  read_ints (cu_array_insert plenty (Some three_ints) (Some (int_bytes 9)) 0)
    = [9; 1; 2; 3].
Proof.
  split; [vm_compute; intuition discriminate|].
  repeat split; vm_compute; reflexivity.
Qed.

(** X17. Insert at one of the last two positions never succeeds on an
    initialized array with at least one item: whatever the heap does,
    the call does not return 0. *)
Lemma insert_near_end_never_succeeds al a src pos arr' :
  initialized a -> 0 < length a -> length a - 1 <= pos <= length a ->
  cu_array_insert al (Some a) (Some src) pos <> Ret (0, arr').
Proof.
  intros Hwf Hlen Hpos Hins. apply insert_cases in Hins.
  destruct Hins as [[E _] | [_ (s & a1 & m & m1 & m2 & _ & _ & Hroom & Hd1 & Hmv & _)]];
    [discriminate|].
  pose proof (room_for_one_fields _ _ _ Hroom) as (_ & El & Hc1 & Hlt).
  pose proof (initialized_block a Hwf) as (m0 & _ & _ & _ & _ & Hcap & Hl).
  pose proof (wrap_range (capacity a * 2)) as Hr.
  assert (Hw : wrap (pos + 1) = pos + 1) by (apply wrap_small; lia).
  unfold cu_array_at in Hmv. rewrite Hd1, Hw, El in Hmv.
  destruct (capacity a1 =? 0); [discriminate|].
  destruct (length a <=? pos + 1) eqn:E; [|lia].
  cbn in Hmv. destruct (length a <=? pos); discriminate.
Qed.

(** C3 fails on the code.  On the array of [int] 1, 2, 3, RemoveAt of
    the last index 2 passes a null source to [cu_memmove]
    ([cu_array_at] of [pos + 1 = length]); on an array filled to its
    capacity, RemoveAt of index 3 moves [length - pos] items instead of
    [length - pos - 1] and reads one item past the block.  RemoveAt of
    indices 0 and 1 of the three items works. *)
Theorem remove_last_faults :
  initialized three_ints /\ initialized full_ints /\
  length full_ints = capacity full_ints /\
  cu_array_remove_at (Some three_ints) 2 = Fault NullPointer /\
  cu_array_remove_at (Some full_ints) 3 = Fault OutOfBounds /\
  read_ints (cu_array_remove_at (Some three_ints) 1) = [1; 3] /\
  read_ints (cu_array_remove_at (Some three_ints) 0) = [2; 3].
Proof.
  split; [vm_compute; intuition discriminate|].
  split; [vm_compute; intuition discriminate|].
  repeat split; vm_compute; reflexivity.
Qed.

(** RemoveAt of the last item never succeeds on an initialized array. *)
Lemma remove_last_never_succeeds a arr' :
  initialized a -> 0 < length a ->
  cu_array_remove_at (Some a) (length a - 1) <> Ret (0, arr').
Proof.
  intros Hwf Hlen Hrm. apply remove_at_cases in Hrm.
  destruct Hrm as [[E _] | [_ (m & m' & Hd & _ & _ & Hmv & _)]]; [discriminate|].
  pose proof (initialized_block a Hwf) as (m0 & _ & _ & _ & _ & Hcap & Hl).
  assert (Hw : wrap (length a - 1 + 1) = length a) by (rewrite Z.sub_add; apply wrap_small; lia).
  unfold cu_array_at in Hmv. rewrite Hd, Hw in Hmv.
  destruct (capacity a =? 0); [discriminate|].
  destruct (length a <=? length a - 1) eqn:E1; [lia|].
  destruct (length a <=? length a) eqn:E2; [|lia].
  cbn in Hmv. discriminate.
Qed.

(** ** Where Insert and RemoveAt do shift the items *)

Lemma at_inside a i :
  initialized a -> 0 <= i < length a ->
  cu_array_at (Some a) i = Some (item_size a * i).
Proof.
  intros Hwf Hi.
  pose proof (initialized_block a Hwf) as (m & Hd & Hb & Hmax & Hisz & Hcap & Hl).
  destruct (item_offset a i Hwf ltac:(lia)) as [Hw _].
  unfold cu_array_at. rewrite Hd, Hw.
  destruct (capacity a =? 0) eqn:E0; [lia|].
  destruct (length a <=? i) eqn:E1; [lia|]. reflexivity.
Qed.

(** RemoveAt of an item that is not the last one, on an array that is
    not full, returns 0 and closes the gap. *)
Lemma remove_shifts a pos :
  initialized a -> 0 <= pos -> pos + 1 < length a -> length a < capacity a ->
  exists a',
    cu_array_remove_at (Some a) pos = Ret (0, Some a') /\
    initialized a' /\ item_size a' = item_size a /\ length a' = length a - 1 /\
    contents a' = take (item_size a * pos) (contents a)
                  ++ drop (item_size a * (pos + 1)) (contents a).
Proof.
  intros Hwf Hpos Hnext Hroom.
  pose proof (initialized_block a Hwf) as (m & Hd & Hb & Hmax & Hisz & Hcap & Hl).
  set (sz := item_size a) in *. set (n := length a) in *.
  assert (Hw1 : wrap (pos + 1) = pos + 1) by (apply wrap_small; lia).
  assert (Hw2 : wrap (n - pos) = n - pos) by (apply wrap_small; lia).
  assert (Hw3 : wrap ((n - pos) * sz) = (n - pos) * sz) by (apply wrap_small; nia).
  assert (Hw4 : wrap (n - 1) = n - 1) by (apply wrap_small; lia).
  assert (Hend : sz * (n + 1) <= blen m) by nia.
  assert (Hp : 0 <= sz * pos) by nia.
  unfold cu_array_remove_at. rewrite Hd. fold n. fold sz.
  destruct (capacity a =? 0) eqn:E0; [lia|].
  destruct (n <=? pos) eqn:E1; [lia|]. cbn [orb].
  rewrite Hw1, Hw2, Hw3, Hw4.
  rewrite (at_inside a pos Hwf ltac:(lia)), (at_inside a (pos + 1) Hwf ltac:(lia)).
  fold sz. unfold cu_memmove.
  rewrite load_ok by nia. cbn [bind].
  set (v := take ((n - pos) * sz) (drop (sz * (pos + 1)) m)).
  assert (Hbv : blen v = (n - pos) * sz).
  { unfold v. apply blen_take. rewrite blen_drop; nia. }
  rewrite store_ok by nia. cbn [bind]. eexists. split; [reflexivity|].
  assert (Hbm : blen (take (sz * pos) m ++ v ++ drop (sz * pos + blen v) m) = blen m).
  { rewrite !blen_app, blen_take, blen_drop by nia. lia. }
  split; [|split; [|split]]; cbn [item_size length]; try reflexivity.
  - unfold initialized. cbn [data item_size length capacity]. fold sz.
    repeat split; try lia.
  - unfold contents. cbn [data item_size length]. rewrite Hd. fold sz n.
    rewrite take_app_ge by (rewrite blen_take; nia).
    rewrite blen_take by nia.
    rewrite take_app_le by nia.
    rewrite take_take by nia. f_equal.
    rewrite drop_take by nia. unfold v. rewrite take_take by nia.
    f_equal. lia.
Qed.

(** Insert before an item that is not the last one opens a gap there
    and fills it with the new item, whenever the call returns 0. *)
Lemma insert_shifts al a src pos a' :
  initialized a -> 0 <= pos -> pos + 1 < length a ->
  cu_array_insert al (Some a) (Some src) pos = Ret (0, Some a') ->
  item_size a <= blen src /\
  initialized a' /\ item_size a' = item_size a /\ length a' = length a + 1 /\
  contents a' = take (item_size a * pos) (contents a)
                ++ take (item_size a) src
                ++ drop (item_size a * pos) (contents a).
Proof.
  intros Hwf Hpos Hnext Hins.
  pose proof (initialized_block a Hwf) as (m0 & Hd & Hb & Hmax & Hisz & Hcap & Hl).
  apply insert_cases in Hins.
  destruct Hins as [[E _] | [_ (s & a1 & m & m1 & m2 & Es & _ & Hroom & Hd1 & Hmv & Hcpy & E)]];
    [discriminate|].
  injection Es as <-. inv E.
  pose proof (room_for_one_fields _ _ _ Hroom) as (Ei & El & Hc1 & Hlt).
  pose proof (wrap_range (capacity a * 2)) as Hr.
  rewrite Ei, El in *.
  set (sz := item_size a) in *. set (n := length a) in *.
  assert (Hw1 : wrap (pos + 1) = pos + 1) by (apply wrap_small; lia).
  assert (Hw2 : wrap (n - pos) = n - pos) by (apply wrap_small; lia).
  assert (Hw3 : wrap ((n - pos) * sz) = (n - pos) * sz) by (apply wrap_small; nia).
  assert (Hw4 : wrap (n + 1) = n + 1) by (apply wrap_small; lia).
  assert (Hw5 : wrap (sz * pos) = sz * pos) by (apply wrap_small; nia).
  assert (Hw6 : wrap (sz * (pos + 1)) = sz * (pos + 1)) by (apply wrap_small; nia).
  assert (Hp : 0 <= sz * pos) by nia.
  assert (Hat : forall i, 0 <= i < n -> cu_array_at (Some a1) i = Some (wrap (sz * i))).
  { intros i Hi. unfold cu_array_at. rewrite Hd1, Ei, El. fold sz n.
    destruct (capacity a1 =? 0) eqn:E0; [lia|].
    destruct (n <=? i) eqn:E1; [lia|]. reflexivity. }
  rewrite Hw1, Hw2, Hw3, Hw4 in *.
  rewrite (Hat (pos + 1)), (Hat pos), Hw5, Hw6 in * by lia.
  unfold cu_memmove in Hmv. apply from_bind in Hmv. destruct Hmv as (v & Hv & Hst).
  apply load_inv in Hv. destruct Hv as (_ & _ & Hvfit & Ev & Hbv).
  apply store_inv in Hst. destruct Hst as (_ & Hsfit & Em1 & Hbm1).
  rewrite Hbv in *.
  apply memcpy_from_inv in Hcpy. destruct Hcpy as (Hsrc & _ & Hcfit & Em2 & Hbm2).
  destruct (room_initialized al a a1 m Hwf Hroom Hd1 ltac:(fold sz n; nia))
    as (Hwf1 & Hc1' & _ & _ & _).
  pose proof Hwf1 as Hblk. unfold initialized in Hblk. rewrite Hd1, Ei in Hblk.
  fold sz in Hblk. destruct Hblk as (Hb1 & Hmax1 & _ & Hcap1 & _).
  split; [lia|]. split; [|split; [|split]]; cbn [item_size length]; try reflexivity.
  - unfold initialized. cbn [data item_size length capacity]. fold sz.
    repeat split; try lia.
  - assert (Hca : contents a = take (sz * n) m).
    { rewrite <- Hc1'. unfold contents. rewrite Hd1, Ei, El. reflexivity. }
    rewrite Hca. unfold contents. cbn [data item_size length].
    assert (Hsv : blen (take sz src) = sz) by (apply blen_take; lia).
    rewrite Em2.
    replace (sz * (n + 1)) with (sz * pos + (sz + (n - pos) * sz)) by lia.
    rewrite take_app_ge by (rewrite blen_take; nia).
    rewrite blen_take by nia.
    replace (sz * pos + (sz + (n - pos) * sz) - sz * pos) with (sz + (n - pos) * sz) by lia.
    rewrite take_app_ge by nia. rewrite Hsv.
    replace (sz + (n - pos) * sz - sz) with ((n - pos) * sz) by lia.
    rewrite take_take by nia. rewrite drop_take by nia.
    replace (sz * n - sz * pos) with ((n - pos) * sz) by lia.
    rewrite <- Ev.
    assert (Et : take (sz * pos) m1 = take (sz * pos) m).
    { rewrite Em1. rewrite take_app_le by (rewrite blen_take; nia).
      apply take_take. nia. }
    assert (Ed : take ((n - pos) * sz) (drop (sz * pos + sz) m1) = v).
    { rewrite Em1. replace (sz * pos + sz) with (sz * (pos + 1)) by lia.
      rewrite drop_app_ge by (rewrite blen_take; nia).
      rewrite blen_take by nia. rewrite Z.sub_diag, drop_zero.
      rewrite take_app_le by nia. apply take_all. lia. }
    rewrite Et, Ed. reflexivity.
Qed.

(** X13. Insert before an item that is not the last one (position [pos]
    with [pos + 1 < length]), whenever it returns 0: the length grows by
    one, the item at [pos] holds the [item_size] bytes behind the given
    pointer, the items before [pos] are unchanged and every item from
    [pos] on has moved up by one position. *)
Lemma insert_items al a src pos a' :
  initialized a -> 0 <= pos -> pos + 1 < length a ->
  cu_array_insert al (Some a) (Some src) pos = Ret (0, Some a') ->
  length a' = length a + 1 /\
  item_at a' pos = Some (take (item_size a) src) /\
  (forall i, 0 <= i < pos -> item_at a' i = item_at a i) /\
  (forall i, pos <= i < length a -> item_at a' (i + 1) = item_at a i).
Proof.
  intros Hwf Hpos Hnext Hins.
  destruct (insert_shifts al a src pos a' Hwf Hpos Hnext Hins)
    as (Hsrc & Hwf' & Ei & El & Hc).
  pose proof (initialized_block a Hwf) as (m & Hd & Hb & Hmax & Hisz & Hcap & Hl).
  pose proof (blen_contents a Hwf) as Hbc.
  set (sz := item_size a) in *. set (n := length a) in *.
  assert (HbA : blen (take (sz * pos) (contents a)) = sz * pos) by (apply blen_take; nia).
  assert (HbS : blen (take sz src) = sz) by (apply blen_take; lia).
  split; [exact El|]. split; [|split].
  - rewrite item_at_contents by (auto; lia). rewrite Hc, Ei. f_equal.
    rewrite drop_app_ge by lia. rewrite HbA, Z.sub_diag, drop_zero.
    rewrite take_app_le by lia. apply take_all. lia.
  - intros i Hi. rewrite !item_at_contents by (auto; lia). rewrite Hc, Ei. f_equal.
    rewrite drop_app_le by nia.
    rewrite take_app_le by (rewrite blen_drop; nia).
    rewrite drop_take by nia. apply take_take. nia.
  - intros i Hi. rewrite !item_at_contents by (auto; lia). rewrite Hc, Ei. f_equal.
    rewrite drop_app_ge by nia. rewrite HbA.
    rewrite drop_app_ge by nia. rewrite HbS.
    rewrite drop_drop by nia. do 2 f_equal. lia.
Qed.

(** X14. RemoveAt of an item that is not the last one, on an
    initialized array that is not full, returns 0: the length shrinks by
    one, the items before [pos] are unchanged and every item behind
    [pos] has moved down by one position. *)
Lemma remove_items a pos :
  initialized a -> 0 <= pos -> pos + 1 < length a -> length a < capacity a ->
  exists a',
    cu_array_remove_at (Some a) pos = Ret (0, Some a') /\
    length a' = length a - 1 /\
    (forall i, 0 <= i < pos -> item_at a' i = item_at a i) /\
    (forall i, pos + 1 <= i < length a -> item_at a' (i - 1) = item_at a i).
Proof.
  intros Hwf Hpos Hnext Hroom.
  destruct (remove_shifts a pos Hwf Hpos Hnext Hroom) as (a' & Hrun & Hwf' & Ei & El & Hc).
  exists a'. split; [exact Hrun|]. split; [exact El|].
  pose proof (initialized_block a Hwf) as (m & Hd & Hb & Hmax & Hisz & Hcap & Hl).
  pose proof (blen_contents a Hwf) as Hbc.
  set (sz := item_size a) in *. set (n := length a) in *.
  assert (HbA : blen (take (sz * pos) (contents a)) = sz * pos) by (apply blen_take; nia).
  split.
  - intros i Hi. rewrite !item_at_contents by (auto; lia). rewrite Hc, Ei. f_equal.
    rewrite drop_app_le by nia.
    rewrite take_app_le by (rewrite blen_drop; nia).
    rewrite drop_take by nia. apply take_take. nia.
  - intros i Hi. rewrite !item_at_contents by (auto; lia). rewrite Hc, Ei. f_equal.
    rewrite drop_app_ge by nia. rewrite HbA.
    rewrite drop_drop by nia. do 2 f_equal. lia.
Qed.

(** ** Arrays made by Initialize *)

Lemma init_initialized al isz a' :
  0 <= isz -> isz * CU_ARRAY_DEFAULT_SIZE <= SIZE_MAX ->
  cu_array_init al (Some zero_array) isz = (0, Some a') ->
  initialized a' /\ length a' = 0 /\ item_size a' = isz.
Proof.
  intros Hisz Hfit Hinit. unfold cu_array_init, cu_malloc in Hinit. cbn in Hinit.
  destruct (grants al (wrap (isz * CU_ARRAY_DEFAULT_SIZE))); [|discriminate].
  inv Hinit. unfold initialized. cbn [data item_size length capacity].
  rewrite blen_fresh, Z2Nat.id by apply wrap_range.
  rewrite wrap_small by (unfold CU_ARRAY_DEFAULT_SIZE in *; lia).
  unfold CU_ARRAY_DEFAULT_SIZE, SIZE_MAX, SIZE_BITS in *. repeat split; lia.
Qed.

(** ** Quicksort keeps the items *)

Lemma exchange_permutation {A} (f g : nat -> A) i j n :
  (i < j)%nat -> (j < n)%nat ->
  g i = f j -> g j = f i ->
  (forall k, (k < n)%nat -> k <> i -> k <> j -> g k = f k) ->
  Permutation (map g (seq 0 n)) (map f (seq 0 n)).
Proof.
  intros Hij Hjn Hi Hj Hk.
  replace n with (i + (1 + ((j - S i) + (1 + (n - S j)))))%nat by lia.
  rewrite !seq_app. cbn [seq]. rewrite !map_app. cbn [map].
  replace (0 + i)%nat with i by lia.
  replace (i + 1 + (j - S i))%nat with j by lia.
  rewrite Hi, Hj.
  rewrite (map_ext_in g f (seq 0 i)).
  2:{ intros k Hin. apply in_seq in Hin. apply Hk; lia. }
  rewrite (map_ext_in g f (seq (i + 1) (j - S i))).
  2:{ intros k Hin. apply in_seq in Hin. apply Hk; lia. }
  rewrite (map_ext_in g f (seq (j + 1) (n - S j))).
  2:{ intros k Hin. apply in_seq in Hin. apply Hk; lia. }
  apply Permutation_app_head. cbn [app].
  set (l2 := map f (seq (i + 1) (j - S i))).
  set (l3 := map f (seq (j + 1) (n - S j))).
  transitivity (f j :: f i :: l2 ++ l3).
  - apply perm_skip. symmetry. apply Permutation_middle.
  - transitivity (f i :: f j :: l2 ++ l3); [apply perm_swap|].
    apply perm_skip. apply Permutation_middle.
Qed.

Lemma store_outside m off v m' lo hi :
  store m off v = Ret m' -> 0 <= lo <= off -> off + blen v <= hi ->
  take lo m' = take lo m /\ drop hi m' = drop hi m.
Proof.
  intros Hst Hlo Hhi. apply store_inv in Hst. destruct Hst as (Hoff & Hfit & -> & _).
  pose proof (blen_nonneg v). split.
  - rewrite take_app_le by (rewrite blen_take; lia). apply take_take. lia.
  - destruct (Z_le_gt_dec hi (blen m)).
    + rewrite drop_app_ge by (rewrite blen_take; lia).
      rewrite blen_take by lia. rewrite drop_app_ge by lia.
      rewrite drop_drop by lia. f_equal. lia.
    + rewrite !drop_all; [reflexivity | lia |].
      rewrite !blen_app, blen_take, blen_drop by lia. lia.
Qed.

Lemma swap_items_outside m isz p q m' lo hi :
  swap_items m isz p q = Ret m' ->
  0 <= lo <= p -> lo <= q -> p + isz <= hi -> q + isz <= hi ->
  take lo m' = take lo m /\ drop hi m' = drop hi m.
Proof.
  unfold swap_items, cu_memcpy_within. intros H Hlo Hq Hp Hqi.
  destruct (CU_ARRAY_MAX_ITEM_SIZE <? isz); [discriminate|].
  apply from_bind in H. destruct H as (tmp & Ht & H).
  apply from_bind in H. destruct H as (m1 & H1 & H2).
  destruct ((p + isz <=? q) || (q + isz <=? p)); [|discriminate].
  apply from_bind in H1. destruct H1 as (v & Hv & Hs).
  apply load_inv in Ht. destruct Ht as (_ & _ & _ & _ & Hbt).
  apply load_inv in Hv. destruct Hv as (_ & _ & _ & _ & Hbv).
  destruct (store_outside _ _ _ _ lo hi Hs ltac:(lia) ltac:(lia)) as [E1 E2].
  destruct (store_outside _ _ _ _ lo hi H2 ltac:(lia) ltac:(lia)) as [E3 E4].
  split; congruence.
Qed.

(** The items of a region depend only on the bytes of the region. *)
Lemma items_of_drop m m' dat isz from n :
  0 <= dat -> 0 <= isz ->
  drop (dat + isz * Z.of_nat from) m' = drop (dat + isz * Z.of_nat from) m ->
  items_of m' dat isz from n = items_of m dat isz from n.
Proof.
  intros Hdat Hisz Hdrop. unfold items_of.
  apply map_ext_in. intros k Hin. apply in_seq in Hin. unfold nth_item.
  set (lo := dat + isz * Z.of_nat from) in *.
  set (o := dat + isz * Z.of_nat k).
  assert (Hlo : 0 <= lo <= o) by (unfold lo, o; nia).
  replace o with (lo + (o - lo)) by lia.
  rewrite <- !(drop_drop (o - lo) lo) by lia.
  rewrite Hdrop. reflexivity.
Qed.

Lemma items_of_take m m' dat isz from n :
  0 <= dat -> 0 <= isz ->
  take (dat + isz * Z.of_nat (from + n)) m' = take (dat + isz * Z.of_nat (from + n)) m ->
  items_of m' dat isz from n = items_of m dat isz from n.
Proof.
  intros Hdat Hisz Htake. unfold items_of.
  apply map_ext_in. intros k Hin. apply in_seq in Hin. unfold nth_item.
  set (hi := dat + isz * Z.of_nat (from + n)) in *.
  set (o := dat + isz * Z.of_nat k).
  assert (Ho : 0 <= o) by (unfold o; nia).
  assert (Hhi : o + isz <= hi) by (unfold hi, o; nia).
  rewrite <- (take_take isz (hi - o) (drop o m')) by lia.
  rewrite <- (take_take isz (hi - o) (drop o m)) by lia.
  rewrite <- !drop_take by lia. rewrite Htake. reflexivity.
Qed.

Lemma items_of_shift m dat isz i from n :
  items_of m dat isz (i + from) n = items_of m (dat + isz * Z.of_nat i) isz from n.
Proof.
  unfold items_of. revert from. induction n as [|n IH]; intros from; [reflexivity|].
  cbn [seq map]. f_equal.
  - unfold nth_item. do 2 f_equal. lia.
  - replace (S (i + from)) with (i + S from)%nat by lia. apply IH.
Qed.

Lemma items_of_split m dat isz i n :
  (i <= n)%nat ->
  items_of m dat isz 0 n
    = items_of m dat isz 0 i ++ items_of m (dat + isz * Z.of_nat i) isz 0 (n - i).
Proof.
  intros Hi. rewrite <- items_of_shift. unfold items_of.
  replace n with (i + (n - i))%nat at 1 by lia.
  rewrite seq_app, map_app. do 3 f_equal. lia.
Qed.

Section QsortPermutes.

Variable compare : bytes -> bytes -> Z.
Hypothesis compare_diag : forall x, compare x x = 0.

Variables dat isz len : Z.

Lemma swap_items_permutes m i j m' :
  region m dat isz len -> 0 <= i -> i < j -> j < len ->
  swap_items m isz (dat + wrap (isz * i)) (dat + wrap (isz * j)) = Ret m' ->
  Permutation (items_of m' dat isz 0 (Z.to_nat len)) (items_of m dat isz 0 (Z.to_nat len)) /\
  take dat m' = take dat m /\
  drop (dat + isz * len) m' = drop (dat + isz * len) m.
Proof.
  intros Hreg Hi Hij Hj Hswap.
  pose proof (swap_items_exchanges dat isz len m i j Hreg Hi Hij Hj) as Hx.
  rewrite Hswap in Hx. cbn [safe] in Hx. destruct Hx as (_ & Hxi & Hxj & Hxk).
  pose proof Hreg as (Hdat & Hisz & Hlen & Hfit & Hmax).
  split.
  - unfold items_of.
    apply (exchange_permutation _ _ (Z.to_nat i) (Z.to_nat j)); try lia.
    + rewrite !Z2Nat.id by lia. exact Hxi.
    + rewrite !Z2Nat.id by lia. exact Hxj.
    + intros k Hk Hki Hkj. apply Hxk; lia.
  - rewrite (wrap_small (isz * i)), (wrap_small (isz * j)) in Hswap by nia.
    apply (swap_items_outside _ _ _ _ _ dat (dat + isz * len) Hswap); nia.
Qed.

Lemma partition_permutes p scan_fuel :
  0 <= p < len -> len <= Z.of_nat scan_fuel ->
  forall fuel m i j si sj,
    region m dat isz len ->
    0 <= i <= si -> si < len -> 0 <= sj <= j -> j < len ->
    ~ compare (nth_item m dat isz si) (nth_item m dat isz p) < 0 ->
    ~ compare (nth_item m dat isz p) (nth_item m dat isz sj) < 0 ->
    forall m' i',
      partition compare fuel scan_fuel m dat isz (dat + wrap (isz * p)) i j = Ret (m', i') ->
      Permutation (items_of m' dat isz 0 (Z.to_nat len))
                  (items_of m dat isz 0 (Z.to_nat len)) /\
      take dat m' = take dat m /\
      drop (dat + isz * len) m' = drop (dat + isz * len) m.
Proof.
  intros Hp Hscan fuel.
  induction fuel as [|fuel IH];
    intros m i j si sj Hreg Hi Hsi Hj Hjl Hup Hdown m' i' Hrun; [discriminate|].
  cbn [partition] in Hrun.
  destruct (scan_up_stops compare dat isz len m p si Hreg Hp Hsi Hup scan_fuel i Hi
              ltac:(lia)) as (i1 & Ei1 & Hi1 & Hstop_i).
  destruct (scan_down_stops compare dat isz len m p sj Hreg Hp ltac:(lia) Hdown
              scan_fuel j ltac:(lia) ltac:(lia)) as (j1 & Ej1 & Hj1 & Hstop_j).
  rewrite Ei1, Ej1 in Hrun. cbn [bind] in Hrun.
  destruct (j1 <=? i1) eqn:Hcross.
  - inv Hrun. repeat split; reflexivity.
  - apply from_bind in Hrun. destruct Hrun as (m1 & Hswap & Hrun).
    pose proof (swap_items_exchanges dat isz len m i1 j1 Hreg ltac:(lia) ltac:(lia)
                  ltac:(lia)) as Hx.
    rewrite Hswap in Hx. cbn [safe] in Hx. destruct Hx as (Hb & Hxi & Hxj & Hxk).
    destruct (swap_items_permutes m i1 j1 m1 Hreg ltac:(lia) ltac:(lia) ltac:(lia) Hswap)
      as (Hperm1 & Htake1 & Hdrop1).
    pose proof Hreg as (_ & _ & Hlen & _).
    rewrite (wrap_small (i1 + 1)), (wrap_small (j1 - 1)) in Hrun by lia.
    destruct (IH m1 (i1 + 1) (j1 - 1) j1 i1) with (m' := m') (i' := i')
      as (Hperm & Htake & Hdrop); try lia; try exact Hrun.
    + apply (region_same_size m); assumption.
    + rewrite Hxj.
      destruct (Z.eq_dec p i1) as [-> | Hpi]; [rewrite Hxi; exact Hstop_j|].
      destruct (Z.eq_dec p j1) as [-> | Hpj]; [rewrite Hxj, compare_diag; lia|].
      rewrite Hxk by lia. exact Hstop_i.
    + rewrite Hxi.
      destruct (Z.eq_dec p i1) as [-> | Hpi]; [rewrite Hxi, compare_diag; lia|].
      destruct (Z.eq_dec p j1) as [-> | Hpj]; [rewrite Hxj; exact Hstop_i|].
      rewrite Hxk by lia. exact Hstop_j.
    + split; [|split].
      * transitivity (items_of m1 dat isz 0 (Z.to_nat len)); assumption.
      * congruence.
      * congruence.
Qed.

End QsortPermutes.

Lemma qsort_internal_permutes compare isz :
  (forall x, compare x x = 0) ->
  forall fuel m dat len m',
    region m dat isz len -> len + 2 <= Z.of_nat fuel ->
    __cu_array_qsort_internal compare fuel m dat isz len = Ret m' ->
    blen m' = blen m /\
    Permutation (items_of m' dat isz 0 (Z.to_nat len))
                (items_of m dat isz 0 (Z.to_nat len)) /\
    take dat m' = take dat m /\
    drop (dat + isz * len) m' = drop (dat + isz * len) m.
Proof.
  intros Hdiag fuel.
  induction fuel as [|fuel IH]; intros m dat len m' Hreg Hfuel Hrun; [discriminate|].
  cbn [__cu_array_qsort_internal] in Hrun.
  destruct (len <? 2) eqn:Hsmall; [inv Hrun; repeat split; reflexivity|].
  pose proof Hreg as (Hdat & Hisz & Hlen & Hfit & Hmax).
  assert (Hp : 1 <= len / 2 <= len - 1).
  { split.
    - apply Z.div_le_lower_bound; lia.
    - assert (len / 2 < len) by (apply Z.div_lt_upper_bound; lia). lia. }
  rewrite (wrap_small (len - 1)) in Hrun by lia.
  apply from_bind in Hrun. destruct Hrun as ([m1 i] & Hpart & Hrun).
  assert (Hdiag_p : ~ compare (nth_item m dat isz (len / 2)) (nth_item m dat isz (len / 2)) < 0)
    by (rewrite Hdiag; lia).
  pose proof (partition_safe compare Hdiag dat isz len (len / 2) fuel
                ltac:(lia) ltac:(lia) fuel m 0 (len - 1) (len / 2) (len / 2)
                Hreg ltac:(lia) ltac:(lia) ltac:(lia) ltac:(lia) Hdiag_p Hdiag_p
                ltac:(right; lia) ltac:(lia) ltac:(lia)) as Hsafe.
  rewrite Hpart in Hsafe. cbn [safe fst snd] in Hsafe. destruct Hsafe as [Hb1 Hi].
  destruct (partition_permutes compare Hdiag dat isz len (len / 2) fuel
              ltac:(lia) ltac:(lia) fuel m 0 (len - 1) (len / 2) (len / 2)
              Hreg ltac:(lia) ltac:(lia) ltac:(lia) ltac:(lia) Hdiag_p Hdiag_p
              m1 i Hpart) as (Hperm1 & Htake1 & Hdrop1).
  apply from_bind in Hrun. destruct Hrun as (m2 & Hleft & Hright).
  assert (Hw : wrap (isz * i) = isz * i) by (apply wrap_small; nia).
  rewrite Hw, (wrap_small (len - i)) in Hright by lia.
  assert (Hreg1 : region m1 dat isz i).
  { apply (region_same_size m); [assumption|].
    unfold region. repeat split; try lia; nia. }
  destruct (IH m1 dat i m2 Hreg1 ltac:(lia) Hleft) as (Hb2 & Hperm2 & Htake2 & Hdrop2).
  assert (Hreg2 : region m2 (dat + isz * i) isz (len - i)).
  { apply (region_same_size m); [congruence|].
    unfold region. repeat split; try lia; nia. }
  destruct (IH m2 (dat + isz * i) (len - i) m' Hreg2 ltac:(lia) Hright)
    as (Hb3 & Hperm3 & Htake3 & Hdrop3).
  replace (dat + isz * i + isz * (len - i)) with (dat + isz * len) in Hdrop3 by lia.
  assert (Hi0 : 0 <= isz * i) by nia.
  split; [congruence|]. split; [|split].
  - transitivity (items_of m1 dat isz 0 (Z.to_nat len)); [|exact Hperm1].
    rewrite (items_of_split m' dat isz (Z.to_nat i) (Z.to_nat len)) by lia.
    rewrite (items_of_split m1 dat isz (Z.to_nat i) (Z.to_nat len)) by lia.
    rewrite !Z2Nat.id by lia.
    replace (Z.to_nat len - Z.to_nat i)%nat with (Z.to_nat (len - i)) by lia.
    apply Permutation_app.
    + rewrite (items_of_take m2 m' dat isz 0 (Z.to_nat i)); try lia.
      * exact Hperm2.
      * cbn [Nat.add]. rewrite Z2Nat.id by lia. exact Htake3.
    + rewrite (items_of_drop m2 m1 (dat + isz * i) isz 0 (Z.to_nat (len - i)));
        try lia.
      * exact Hperm3.
      * cbn [Z.of_nat]. rewrite Z.mul_0_r, Z.add_0_r. symmetry. exact Hdrop2.
  - rewrite <- Htake1, <- Htake2.
    rewrite <- (take_take dat (dat + isz * i) m') by lia.
    rewrite <- (take_take dat (dat + isz * i) m2) by lia.
    rewrite Htake3. reflexivity.
  - rewrite <- Hdrop1, Hdrop3.
    replace (dat + isz * len) with (dat + isz * i + (dat + isz * len - (dat + isz * i)))
      by lia.
    rewrite <- !(drop_drop (dat + isz * len - (dat + isz * i)) (dat + isz * i)) by nia.
    rewrite Hdrop2. reflexivity.
Qed.

Lemma item_at_stored_items a i :
  initialized a -> 0 <= i < length a ->
  item_at a i = nth_error (stored_items a) (Z.to_nat i).
Proof.
  intros Hwf Hi.
  pose proof (initialized_block a Hwf) as (m & Hd & Hb & Hmax & Hisz & Hcap & Hl).
  rewrite item_at_contents by assumption.
  unfold stored_items, items_of, contents. rewrite Hd.
  rewrite nth_error_map, nth_error_seq.
  destruct (Nat.ltb_spec (Z.to_nat i) (Z.to_nat (length a))); [|lia].
  cbn [option_map Nat.add]. rewrite Z2Nat.id by lia. f_equal.
  unfold nth_item. cbn [Z.add].
  rewrite drop_take by nia. apply take_take. nia.
Qed.

(** X1. Whenever Sort returns 0 on an initialized array (comparator
    with [compare x x = 0], fuel [length + 2] or more), the stored items
    are a permutation of the items before the call: none is lost,
    duplicated or altered.  The bytes of the block behind the items and
    the fields [item_size], [length] and [capacity] are unchanged. *)
Theorem qsort_permutes :
  forall compare a fuel a',
    (forall x, compare x x = 0) -> initialized a ->
    length a + 2 <= Z.of_nat fuel ->
    cu_array_qsort compare fuel (Some a) = Ret (0, Some a') ->
    Permutation (stored_items a') (stored_items a) /\
    slack a' = slack a /\ initialized a' /\
    item_size a' = item_size a /\ length a' = length a /\ capacity a' = capacity a /\
    (forall i, 0 <= i < length a ->
       item_at a i = nth_error (stored_items a) (Z.to_nat i) /\
       item_at a' i = nth_error (stored_items a') (Z.to_nat i)).
Proof.
  intros compare a fuel a' Hdiag Hwf Hfuel Hrun.
  pose proof (initialized_block a Hwf) as (m & Hd & Hb & Hmax & Hisz & Hcap & Hl).
  destruct (initialized_region a m Hwf Hd) as (Hreg & _ & _).
  unfold cu_array_qsort in Hrun. rewrite Hd in Hrun.
  destruct (capacity a =? 0) eqn:E0; [lia|].
  apply from_bind in Hrun. destruct Hrun as (m' & Hsort & E). inv E.
  destruct (qsort_internal_permutes compare (item_size a) Hdiag fuel m 0 (length a) m'
              Hreg Hfuel Hsort) as (Hb' & Hperm & _ & Hdrop).
  assert (Hwf' : initialized
                   (mk_array (Some m') (item_size a) (length a) (capacity a))).
  { unfold initialized. cbn [data item_size length capacity]. repeat split; lia. }
  rewrite Z.add_0_l in Hdrop.
  split; [unfold stored_items; cbn [data item_size length]; rewrite Hd; exact Hperm|].
  split; [unfold slack; cbn [data item_size length]; rewrite Hd; exact Hdrop|].
  split; [exact Hwf'|].
  split; [reflexivity|]. split; [reflexivity|]. split; [reflexivity|].
  intros i Hi. split.
  - apply item_at_stored_items; assumption.
  - apply item_at_stored_items; assumption.
Qed.

Lemma qsort_permutes_witness :
  exists a',
    cu_array_qsort compare_unsigned 6 (Some unsorted_ints) = Ret (0, Some a') /\
    Permutation (stored_items a') (stored_items unsorted_ints).
Proof.
  eexists. split; [vm_compute; reflexivity|].
  apply (qsort_permutes compare_unsigned unsorted_ints 6 _
           (compare_refl _ compare_unsigned_total_order) unsorted_ints_initialized).
  - cbn. lia.
  - vm_compute. reflexivity.
Defined.

(** ** The power-of-two growth policy *)

Lemma top_ones_step y k w :
  0 < w -> top_ones y k w -> top_ones (Z.lor y (Z.shiftr y w)) k (2 * w).
Proof.
  intros Hw [Hhigh Hlow]. split.
  - intros i Hi. rewrite Z.lor_spec.
    destruct (Z_lt_ge_dec i 0) as [Hneg | Hpos].
    + rewrite !Z.testbit_neg_r by lia. reflexivity.
    + rewrite Z.shiftr_spec by lia. rewrite !Hhigh by lia. reflexivity.
  - intros i Hi Hrange. rewrite Z.lor_spec, Z.shiftr_spec by lia.
    destruct (Z_lt_ge_dec (k - w) i) as [Hnear | Hfar].
    + rewrite Hlow by lia. reflexivity.
    + rewrite (Hlow (i + w)) by lia. apply orb_true_r.
Qed.

Lemma top_ones_all y k w :
  0 <= k < w -> top_ones y k w -> y = Z.ones (k + 1).
Proof.
  intros Hk [Hhigh Hlow]. apply Z.bits_inj'. intros i Hi.
  destruct (Z_lt_ge_dec k i) as [Hgt | Hle].
  - rewrite Hhigh by lia. rewrite Z.ones_spec_high by lia. reflexivity.
  - rewrite Hlow by lia. rewrite Z.ones_spec_low by lia. reflexivity.
Qed.

(** The six shift-and-or steps fill in every bit below the highest one. *)
Lemma smear_ones x :
  0 < x <= SIZE_MAX ->
  let v := Z.lor x (Z.shiftr x 1) in
  let v := Z.lor v (Z.shiftr v 2) in
  let v := Z.lor v (Z.shiftr v 4) in
  let v := Z.lor v (Z.shiftr v 8) in
  let v := Z.lor v (Z.shiftr v 16) in
  let v := Z.lor v (Z.shiftr v 32) in
  v = Z.ones (Z.log2 x + 1).
Proof.
  intros Hx. cbv zeta.
  assert (Hk : 0 <= Z.log2 x < 64).
  { split; [apply Z.log2_nonneg|].
    apply Z.log2_lt_pow2; [lia|]. unfold SIZE_MAX, SIZE_BITS in Hx. lia. }
  assert (H1 : top_ones x (Z.log2 x) 1).
  { split.
    - intros i Hi. apply Z.bits_above_log2; lia.
    - intros i Hi Hr. replace i with (Z.log2 x) by lia. apply Z.bit_log2. lia. }
  apply (top_ones_all _ (Z.log2 x) 64); [lia|].
  pose proof (top_ones_step _ _ 1 ltac:(lia) H1) as H2.
  pose proof (top_ones_step _ _ 2 ltac:(lia) H2) as H4.
  pose proof (top_ones_step _ _ 4 ltac:(lia) H4) as H8.
  pose proof (top_ones_step _ _ 8 ltac:(lia) H8) as H16.
  pose proof (top_ones_step _ _ 16 ltac:(lia) H16) as H32.
  exact (top_ones_step _ _ 32 ltac:(lia) H32).
Qed.

Lemma next_power_of_two_log2 v :
  2 <= v <= SIZE_MAX ->
  __next_power_of_two v = wrap (2 ^ (Z.log2 (v - 1) + 1)).
Proof.
  intros Hv. unfold __next_power_of_two.
  rewrite (wrap_small (v - 1)) by lia.
  rewrite (smear_ones (v - 1)) by lia.
  rewrite Z.ones_equiv. f_equal.
  pose proof (Z.log2_nonneg (v - 1)). lia.
Qed.

Lemma next_power_of_two_small v :
  1 <= v <= 2 ^ 63 ->
  exists e, 0 <= e <= 63 /\ __next_power_of_two v = 2 ^ e /\ v <= 2 ^ e < 2 * v.
Proof.
  intros Hv. destruct (Z.eq_dec v 1) as [-> | Hne].
  - exists 0. split; [lia|]. split; [vm_compute; reflexivity | lia].
  - assert (Hx : 0 < v - 1) by lia.
    pose proof (Z.log2_spec (v - 1) Hx) as [Hlo Hhi].
    pose proof (Z.log2_nonneg (v - 1)) as Hk.
    assert (Hk63 : Z.log2 (v - 1) < 63) by (apply Z.log2_lt_pow2; lia).
    replace (Z.succ (Z.log2 (v - 1))) with (Z.log2 (v - 1) + 1) in Hhi by lia.
    assert (Hpow : 2 ^ (Z.log2 (v - 1) + 1) = 2 * 2 ^ Z.log2 (v - 1))
      by (rewrite Z.pow_add_r by lia; lia).
    assert (Hle : 2 ^ (Z.log2 (v - 1) + 1) <= 2 ^ 63)
      by (apply Z.pow_le_mono_r; lia).
    exists (Z.log2 (v - 1) + 1). split; [lia|]. split; [|lia].
    rewrite next_power_of_two_log2 by (unfold SIZE_MAX, SIZE_BITS; lia).
    apply wrap_small. unfold SIZE_MAX, SIZE_BITS. lia.
Qed.

Lemma next_power_of_two_fixed e :
  0 <= e <= 63 -> __next_power_of_two (2 ^ e) = 2 ^ e.
Proof.
  intros He.
  assert (Hp : 1 <= 2 ^ e <= 2 ^ 63).
  { split; [pose proof (Z.pow_pos_nonneg 2 e); lia | apply Z.pow_le_mono_r; lia]. }
  destruct (next_power_of_two_small (2 ^ e) Hp) as (e' & He' & -> & Hlo & Hhi).
  destruct (Z.lt_trichotomy e e') as [Hlt | [-> | Hgt]]; [|reflexivity|].
  - exfalso. assert (2 ^ (e + 1) <= 2 ^ e') by (apply Z.pow_le_mono_r; lia).
    rewrite Z.pow_add_r in H by lia. lia.
  - exfalso. assert (2 ^ e' < 2 ^ e) by (apply Z.pow_lt_mono_r; lia). lia.
Qed.

Lemma next_power_of_two_wraps v :
  v = 0 \/ 2 ^ 63 < v <= SIZE_MAX -> __next_power_of_two v = 0.
Proof.
  intros [-> | Hv]; [vm_compute; reflexivity|].
  rewrite next_power_of_two_log2 by lia.
  assert (Hk : Z.log2 (v - 1) = 63).
  { apply Z.log2_unique; [lia|]. unfold SIZE_MAX, SIZE_BITS in Hv.
    change (Z.succ 63) with 64. lia. }
  rewrite Hk. vm_compute. reflexivity.
Qed.

(** X2. [__next_power_of_two] (64-bit [size_t]): for [1 <= v <= 2^63] it
    returns the least power of two that is not below [v] (a power of
    two [2^e] with [v <= 2^e < 2 * v]), so a power of two is returned
    unchanged; for [v = 0] and for [v] above [2^63] the result wraps
    around to [0]. *)
Theorem next_power_of_two_spec :
  (forall v, 1 <= v <= 2 ^ 63 ->
     exists e, 0 <= e <= 63 /\ __next_power_of_two v = 2 ^ e /\ v <= 2 ^ e < 2 * v) /\
  (forall e, 0 <= e <= 63 -> __next_power_of_two (2 ^ e) = 2 ^ e) /\
  (forall v, v = 0 \/ 2 ^ 63 < v <= SIZE_MAX -> __next_power_of_two v = 0).
Proof.
  split; [exact next_power_of_two_small|].
  split; [exact next_power_of_two_fixed | exact next_power_of_two_wraps].
Qed.

Lemma next_power_of_two_spec_witness :
  exists e, 0 <= e <= 63 /\ __next_power_of_two 33 = 2 ^ e /\ 33 <= 2 ^ e < 2 * 33.
Proof.
  apply (proj1 next_power_of_two_spec 33). lia.
Defined.

Lemma grow_speed_capacity c :
  1 <= c <= SIZE_MAX ->
  let n1 := __next_power_of_two c in
  let n := if n1 =? c then __next_power_of_two (wrap (c + 1)) else n1 in
  (2 ^ 63 <= c -> n = 0) /\
  (c < 2 ^ 63 -> exists e, 0 <= e <= 63 /\ n = 2 ^ e /\ c < n <= 2 * c).
Proof.
  intros Hc. cbv zeta.
  pose proof next_power_of_two_small as Hmain.
  pose proof next_power_of_two_fixed as Hfix.
  pose proof next_power_of_two_wraps as Hzero.
  unfold SIZE_MAX, SIZE_BITS in Hc.
  split.
  - intros Hbig. destruct (Z.eq_dec c (2 ^ 63)) as [-> | Hne].
    + rewrite (Hfix 63) by lia. rewrite Z.eqb_refl.
      rewrite wrap_small by (unfold SIZE_MAX, SIZE_BITS; lia).
      apply Hzero. right. unfold SIZE_MAX, SIZE_BITS. lia.
    + rewrite (Hzero c) by (right; unfold SIZE_MAX, SIZE_BITS; lia).
      destruct (0 =? c) eqn:E; [lia | reflexivity].
  - intros Hsmall.
    destruct (Hmain c ltac:(lia)) as (e & He & -> & Hlo & Hhi).
    destruct (2 ^ e =? c) eqn:E.
    + apply Z.eqb_eq in E.
      rewrite wrap_small by (unfold SIZE_MAX, SIZE_BITS; lia).
      destruct (Hmain (c + 1) ltac:(lia)) as (e' & He' & -> & Hlo' & Hhi').
      exists e'. split; [lia|]. split; [reflexivity|]. split; [lia|].
      assert (He1 : 1 <= e').
      { destruct (Z.eq_dec e' 0) as [-> | ?]; [|lia]. cbn in Hlo'. lia. }
      replace e' with (e' - 1 + 1) in * by lia.
      rewrite Z.pow_add_r in * by lia. lia.
    + apply Z.eqb_neq in E. exists e. repeat split; lia.
Qed.

(** X3. [__cu_array_grow] built with [CU_GROWTH_RATE_SPEED]: when it
    returns 0 the new capacity is a power of two strictly above the old
    capacity and at most twice it, and above [length]; [length] and
    [item_size] are kept.  When it returns non-zero and [realloc] has not
    freed the block, the array is unchanged.  [realloc] can free the
    block only when [item_size] times the new capacity, a power of two,
    is 0 modulo [2^64]; the call returns 1 then, with the fields as they
    were.  Once the capacity has reached [2^63] the call returns 1
    without calling [realloc]. *)
Theorem grow_speed_spec :
  (forall al a a',
      well_typed a ->
      __cu_array_grow_speed al (Some a) = Ret (0, Some a') ->
      exists e, 0 <= e <= 63 /\ capacity a' = 2 ^ e /\
        capacity a < capacity a' <= 2 * capacity a /\ length a < capacity a' /\
        length a' = length a /\ item_size a' = item_size a) /\
  (forall al a r arr',
      __cu_array_grow_speed al (Some a) = Ret (r, arr') -> r <> 0 -> arr' = Some a) /\
  (forall al a x,
      well_typed a ->
      __cu_array_grow_speed al (Some a) = Released x ->
      x = (1, Some a) /\ frees_on_zero al = true /\
      exists e, 0 <= e <= 63 /\ capacity a < 2 ^ e <= 2 * capacity a /\
        wrap (item_size a * 2 ^ e) = 0) /\
  (forall al a,
      well_typed a -> 2 ^ 63 <= capacity a ->
      __cu_array_grow_speed al (Some a) = Ret (1, Some a)).
Proof.
  split; [|split; [|split]].
  - intros al a a' (_ & Hl & Hc) H. unfold __cu_array_grow_speed in H.
    destruct (data a) as [m|]; [|discriminate].
    destruct (capacity a =? 0) eqn:E0; [discriminate|].
    unfold size_t in *.
    destruct (grow_speed_capacity (capacity a) ltac:(lia)) as [Hbig Hsmall].
    cbv zeta in H, Hbig, Hsmall.
    set (n := if __next_power_of_two (capacity a) =? capacity a
              then __next_power_of_two (wrap (capacity a + 1))
              else __next_power_of_two (capacity a)) in *.
    destruct (n <=? length a) eqn:El; [discriminate|].
    destruct (cu_realloc al m (wrap (item_size a * n))); [|discriminate..].
    inv H. cbn [capacity length item_size].
    destruct (Z_lt_ge_dec (capacity a) (2 ^ 63)) as [Hlt | Hge].
    + destruct (Hsmall Hlt) as (e & He & En & Hgt).
      exists e. repeat split; try lia.
    + rewrite (Hbig ltac:(lia)) in El. lia.
  - intros al a r arr' H Hr. unfold __cu_array_grow_speed in H.
    destruct (data a) as [m|]; [|inv H; reflexivity].
    destruct (capacity a =? 0); [inv H; reflexivity|].
    cbv zeta in H.
    destruct (_ <=? length a); [inv H; reflexivity|].
    destruct (cu_realloc al m _); inv H; [contradiction | reflexivity].
  - intros al a x (_ & Hl & Hc) H. unfold __cu_array_grow_speed in H.
    destruct (data a) as [m|]; [|discriminate].
    destruct (capacity a =? 0) eqn:E0; [discriminate|].
    unfold size_t in *.
    destruct (grow_speed_capacity (capacity a) ltac:(lia)) as [Hbig Hsmall].
    cbv zeta in H, Hbig, Hsmall.
    set (n := if __next_power_of_two (capacity a) =? capacity a
              then __next_power_of_two (wrap (capacity a + 1))
              else __next_power_of_two (capacity a)) in *.
    destruct (n <=? length a) eqn:El; [discriminate|].
    destruct (cu_realloc al m (wrap (item_size a * n))) eqn:Hre; inv H.
    apply realloc_freed in Hre. destruct Hre as (Hz & _ & Hf).
    split; [reflexivity|]. split; [exact Hf|].
    destruct (Z_lt_ge_dec (capacity a) (2 ^ 63)) as [Hlt | Hge].
    + destruct (Hsmall Hlt) as (e & He & En & Hgt).
      exists e. rewrite <- En. repeat split; try lia.
    + rewrite (Hbig ltac:(lia)) in El. lia.
  - intros al a (_ & Hl & Hc) Hbig. unfold __cu_array_grow_speed.
    destruct (data a) as [m|]; [|reflexivity].
    destruct (capacity a =? 0) eqn:E0; [reflexivity|].
    unfold size_t in *.
    destruct (grow_speed_capacity (capacity a) ltac:(lia)) as [Hzero _].
    cbv zeta in *. rewrite (Hzero Hbig).
    destruct (0 <=? length a) eqn:El; [reflexivity | lia].
Qed.

Lemma grow_speed_spec_witness :
  exists a' e,
    __cu_array_grow_speed plenty (Some full_byte_array) = Ret (0, Some a') /\
    0 <= e <= 63 /\ capacity a' = 2 ^ e.
Proof.
  assert (Hwt : well_typed full_byte_array) by (vm_compute; intuition discriminate).
  eexists.
  destruct (proj1 grow_speed_spec plenty full_byte_array _ Hwt eq_refl)
    as (e & He & Hcap & _).
  exists e. split; [vm_compute; reflexivity|]. split; [exact He | exact Hcap].
Defined.

(** ** The test macros *)

Lemma wrap_succ z : wrap (wrap z + 1) = wrap (z + 1).
Proof.
  unfold wrap. apply Z.add_mod_idemp_l. unfold SIZE_BITS. lia.
Qed.

Lemma counts_shift g t p c cp c' cp' :
  counts g t p c cp -> c' = c -> cp' = cp -> counts g t p c' cp'.
Proof. intros H -> ->. exact H. Qed.

Lemma run_steps_spec steps :
  forall res g t p c cp,
    counts g t p c cp ->
    match run_steps steps res g with
    | inl (res', g') =>
      requires_hold steps = false /\ res' = 1 /\
      __g_cu_unit_test_result g' = __g_cu_unit_test_result g /\
      counts g' t p (c + Z.of_nat (evaluated steps))
             (cp + Z.of_nat (evaluated_true steps))
    | inr (res', g') =>
      requires_hold steps = true /\
      res' = (if checks_hold steps then res else 1) /\
      __g_cu_unit_test_result g' = __g_cu_unit_test_result g /\
      counts g' t p (c + Z.of_nat (evaluated steps))
             (cp + Z.of_nat (evaluated_true steps))
    end.
Proof.
  induction steps as [|s rest IH]; intros res g t p c cp (Ht & Hp & Hc & Hcp).
  - cbn. rewrite !Z.add_0_r. repeat split; assumption.
  - assert (Hcount : counts (count_check g) t p (c + 1) cp).
    { unfold counts, count_check. cbn. rewrite Hc, wrap_succ. repeat split; assumption. }
    assert (Hpassed : counts (count_check_passed (count_check g)) t p (c + 1) (cp + 1)).
    { unfold counts, count_check_passed, count_check. cbn.
      rewrite Hc, Hcp, !wrap_succ. repeat split; assumption. }
    destruct s as [[|] | [|]]; cbn [run_steps negb].
    + specialize (IH res _ t p (c + 1) (cp + 1) Hpassed).
      cbn [requires_hold checks_hold forallb evaluated evaluated_true andb].
      fold (requires_hold rest). fold (checks_hold rest).
      destruct (run_steps rest res _) as [[res' g'] | [res' g']];
        destruct IH as (H1 & H2 & H3 & H4);
        (split; [exact H1|]; split; [exact H2|]; split; [exact H3|];
         apply (counts_shift _ _ _ _ _ _ _ H4); lia).
    + specialize (IH 1 _ t p (c + 1) cp Hcount).
      cbn [requires_hold checks_hold forallb evaluated evaluated_true andb].
      fold (requires_hold rest). fold (checks_hold rest).
      destruct (run_steps rest 1 _) as [[res' g'] | [res' g']];
        destruct IH as (H1 & H2 & H3 & H4);
        (split; [exact H1|]; split; [destruct (checks_hold rest); exact H2|];
         split; [exact H3|];
         apply (counts_shift _ _ _ _ _ _ _ H4); lia).
    + specialize (IH res _ t p (c + 1) (cp + 1) Hpassed).
      cbn [requires_hold checks_hold forallb evaluated evaluated_true andb].
      fold (requires_hold rest). fold (checks_hold rest).
      destruct (run_steps rest res _) as [[res' g'] | [res' g']];
        destruct IH as (H1 & H2 & H3 & H4);
        (split; [exact H1|]; split; [exact H2|]; split; [exact H3|];
         apply (counts_shift _ _ _ _ _ _ _ H4); lia).
    + cbn. split; [reflexivity|]. split; [reflexivity|]. split; [reflexivity|].
      apply (counts_shift _ _ _ _ _ _ _ Hcount); lia.
Qed.

Lemma counts_shift_all g t p c cp t' p' c' cp' :
  counts g t p c cp -> t' = t -> p' = p -> c' = c -> cp' = cp ->
  counts g t' p' c' cp'.
Proof. intros H -> -> -> ->. exact H. Qed.

Lemma run_test_spec steps g t p c cp :
  counts g t p c cp ->
  counts (snd (run_test steps g)) (t + 1)
         (p + (if passes steps then 1 else 0))
         (c + Z.of_nat (evaluated steps)) (cp + Z.of_nat (evaluated_true steps)) /\
  __g_cu_unit_test_result (snd (run_test steps g))
    = (if marks_failure steps then 1 else __g_cu_unit_test_result g) /\
  fst (run_test steps g) = (if passes steps then 0 else 1).
Proof.
  intros (Ht & Hp & Hc & Hcp). unfold run_test, CU_TEST_START, passes, marks_failure.
  set (g0 := mk_globals _ _ _ _ _).
  assert (H0 : counts g0 (t + 1) p c cp).
  { unfold counts, g0. cbn. rewrite Ht, wrap_succ. repeat split; assumption. }
  pose proof (run_steps_spec steps 0 g0 _ _ _ _ H0) as Hrun.
  destruct (run_steps steps 0 g0) as [[res' g'] | [res' g']];
    destruct Hrun as (Hreq & Hres & Hflag & Hcounts); rewrite Hreq; cbn [andb snd fst].
  - rewrite Z.add_0_r. repeat split; try apply Hcounts; auto.
  - unfold CU_TEST_END. subst res'.
    destruct Hcounts as (Ht' & Hp' & Hc' & Hcp').
    destruct (checks_hold steps); cbn [Z.eqb negb fst snd]; unfold counts; cbn.
    + rewrite Hp', wrap_succ. repeat split; auto.
    + rewrite Z.add_0_r. repeat split; auto.
Qed.

Lemma run_tests_spec tests :
  forall g t p c cp,
    counts g t p c cp ->
    counts (run_tests tests g) (t + Z.of_nat (List.length tests))
           (p + Z.of_nat (count_where passes tests))
           (c + Z.of_nat (list_sum (map evaluated tests)))
           (cp + Z.of_nat (list_sum (map evaluated_true tests))) /\
    __g_cu_unit_test_result (run_tests tests g)
      = (if existsb marks_failure tests then 1 else __g_cu_unit_test_result g).
Proof.
  induction tests as [|steps rest IH]; intros g t p c cp Hg.
  - cbn. rewrite !Z.add_0_r. split; [exact Hg | reflexivity].
  - destruct (run_test_spec steps g t p c cp Hg) as (H1 & Hflag & _).
    destruct (IH _ _ _ _ _ H1) as (Hcounts & Hres).
    unfold run_tests in *. cbn [fold_left existsb]. split.
    + apply (counts_shift_all _ _ _ _ _ _ _ _ _ Hcounts);
        cbn [map List.length]; unfold count_where, list_sum; cbn [filter fold_right];
        destruct (passes steps); cbn [List.length]; lia.
    + rewrite Hres, Hflag.
      destruct (marks_failure steps), (existsb marks_failure rest); reflexivity.
Qed.

Lemma init_counts : counts __CU_TEST_INIT 0 0 0 0.
Proof. repeat split. Qed.

Lemma evaluated_true_le steps : (evaluated_true steps <= evaluated steps)%nat.
Proof.
  induction steps as [|[[|] | [|]] rest IH]; cbn; lia.
Qed.

(** X4. After any sequence of test functions, started from the state
    [__CU_TEST_INIT] declares, the counters hold (modulo [2^64]) the
    number of test functions run, the number of those in which every
    condition held, the number of conditions evaluated (a failed
    [CU_TEST_REQUIRE] is the last one of its test) and the number of
    evaluated conditions that held; the passed counts never exceed the
    totals they are printed against. *)
Theorem test_counters :
  forall tests,
    let g := run_tests tests __CU_TEST_INIT in
    __g_cu_num_tests g = wrap (Z.of_nat (List.length tests)) /\
    __g_cu_num_tests_passed g = wrap (Z.of_nat (count_where passes tests)) /\
    __g_cu_num_checks g = wrap (Z.of_nat (list_sum (map evaluated tests))) /\
    __g_cu_num_checks_passed g = wrap (Z.of_nat (list_sum (map evaluated_true tests))) /\
    (count_where passes tests <= List.length tests)%nat /\
    (list_sum (map evaluated_true tests) <= list_sum (map evaluated tests))%nat.
Proof.
  intros tests g.
  destruct (run_tests_spec tests _ _ _ _ _ init_counts) as ((Ht & Hp & Hc & Hcp) & _).
  rewrite !Z.add_0_l in *. fold g in Ht, Hp, Hc, Hcp.
  repeat split; try assumption.
  - unfold count_where. apply filter_length_le.
  - clear. induction tests as [|steps rest IH]; [apply Nat.le_refl|].
    cbn [map]. unfold list_sum in *. cbn [fold_right].
    pose proof (evaluated_true_le steps). lia.
Qed.

Lemma run_steps_result steps :
  forall res g,
    match run_steps steps res g with
    | inl (r, _) => requires_hold steps = false /\ r = 1
    | inr (r, _) => requires_hold steps = true /\
                    r = (if checks_hold steps then res else 1)
    end.
Proof.
  induction steps as [|[[|] | [|]] rest IH]; intros res g;
    cbn [run_steps negb requires_hold checks_hold forallb andb].
  - split; reflexivity.
  - apply IH.
  - specialize (IH 1 (count_check g)).
    fold (requires_hold rest) in *. fold (checks_hold rest) in *.
    destruct (run_steps rest 1 (count_check g)) as [[r g2] | [r g2]];
      destruct IH as [H1 H2]; split; auto.
    destruct (checks_hold rest); exact H2.
  - apply IH.
  - split; reflexivity.
Qed.

Lemma run_test_result steps g :
  fst (run_test steps g) = (if passes steps then 0 else 1).
Proof.
  unfold run_test, CU_TEST_START, passes.
  set (g0 := mk_globals _ _ _ _ _).
  pose proof (run_steps_result steps 0 g0) as Hany.
  destruct (run_steps steps 0 g0) as [[r g2] | [r g2]]; destruct Hany as [-> ->].
  - reflexivity.
  - unfold CU_TEST_END. cbn [andb].
    destruct (checks_hold steps); reflexivity.
Qed.

(** X5. [CU_RUN_END] returns 1 exactly when some test function reached
    [CU_TEST_END] (none of its [CU_TEST_REQUIRE] failed) after a failed
    [CU_TEST_CHECK].  A test function left through a failed
    [CU_TEST_REQUIRE] returns 1 itself but skips [CU_TEST_END]: when
    every test function of a run ends that way, [CU_RUN_END] returns 0
    although no test is counted as passed. *)
Theorem test_run_result :
  (forall tests,
      CU_RUN_END (run_tests tests __CU_TEST_INIT)
        = (if existsb marks_failure tests then 1 else 0)) /\
  (forall steps g, fst (run_test steps g) = (if passes steps then 0 else 1)) /\
  (forall tests,
      Forall (fun steps => requires_hold steps = false) tests ->
      CU_RUN_END (run_tests tests __CU_TEST_INIT) = 0 /\
      __g_cu_num_tests_passed (run_tests tests __CU_TEST_INIT) = 0 /\
      Forall (fun steps => fst (run_test steps __CU_TEST_INIT) = 1) tests).
Proof.
  assert (Hres : forall tests,
      CU_RUN_END (run_tests tests __CU_TEST_INIT)
        = (if existsb marks_failure tests then 1 else 0)).
  { intros tests. unfold CU_RUN_END.
    destruct (run_tests_spec tests _ _ _ _ _ init_counts) as (_ & ->). reflexivity. }
  split; [exact Hres|]. split; [exact run_test_result|].
  intros tests Hall.
  assert (Hnone : existsb marks_failure tests = false /\ count_where passes tests = 0%nat).
  { induction Hall as [|steps rest Hs Hrest IH]; [split; reflexivity|].
    destruct IH as [IH1 IH2]. unfold count_where in *. cbn [existsb filter].
    unfold marks_failure, passes. rewrite Hs. cbn [andb orb]. split; assumption. }
  destruct Hnone as [Hnone Hzero].
  split; [rewrite Hres, Hnone; reflexivity|]. split.
  - destruct (run_tests_spec tests _ _ _ _ _ init_counts) as ((_ & Hp & _) & _).
    rewrite Hp, Hzero. reflexivity.
  - apply Forall_impl with (2 := Hall). intros steps Hs. rewrite run_test_result.
    unfold passes. rewrite Hs. reflexivity.
Qed.

Lemma test_run_result_witness :
  CU_RUN_END (run_tests [[StepCheck true; StepRequire false; StepCheck true]]
                        __CU_TEST_INIT) = 0 /\
  __g_cu_num_tests_passed
    (run_tests [[StepCheck true; StepRequire false; StepCheck true]] __CU_TEST_INIT) = 0.
Proof.
  destruct (proj2 (proj2 test_run_result)
              [[StepCheck true; StepRequire false; StepCheck true]]) as (H1 & H2 & _).
  - repeat constructor.
  - split; [exact H1 | exact H2].
Defined.

(** ** More about the array calls *)

(** X6. On an initialized array, At returns null exactly for the
    positions that are not below [length]; for a position below
    [length] it returns the offset [item_size * pos], the item lies
    inside the part of the block that holds the stored items, and the
    items of two different positions do not overlap. *)
Theorem at_in_bounds :
  forall a pos,
    initialized a -> size_t pos ->
    (length a <= pos -> cu_array_at (Some a) pos = None /\ item_at a pos = None) /\
    (pos < length a ->
       cu_array_at (Some a) pos = Some (item_size a * pos) /\
       item_size a * pos + item_size a <= blen (contents a) /\
       (exists v, item_at a pos = Some v /\ blen v = item_size a) /\
       (forall pos', pos < pos' < length a ->
          exists off', cu_array_at (Some a) pos' = Some off' /\
                       item_size a * pos + item_size a <= off')).
Proof.
  intros a pos Hwf [Hpos _].
  pose proof (initialized_block a Hwf) as (m & Hd & Hb & Hmax & Hisz & Hcap & Hl).
  split.
  - intros Hout. unfold item_at, cu_array_at. rewrite Hd.
    destruct (capacity a =? 0); [split; reflexivity|].
    destruct (length a <=? pos) eqn:E; [split; reflexivity | lia].
  - intros Hin. rewrite (at_inside a pos Hwf ltac:(lia)).
    rewrite (blen_contents a Hwf).
    split; [reflexivity|]. split; [nia|]. split.
    + rewrite item_at_contents by (auto; lia). eexists. split; [reflexivity|].
      apply blen_take. rewrite blen_drop; rewrite ?blen_contents; auto; nia.
    + intros pos' Hpos'. rewrite (at_inside a pos' Hwf ltac:(lia)).
      eexists. split; [reflexivity | nia].
Qed.

Lemma at_in_bounds_witness :
  cu_array_at (Some three_ints) 3 = None /\ item_at three_ints 3 = None.
Proof.
  assert (Hwf : initialized three_ints) by (vm_compute; intuition discriminate).
  assert (Hpos : size_t 3) by (vm_compute; intuition discriminate).
  apply (proj1 (at_in_bounds three_ints 3 Hwf Hpos)). cbn. lia.
Defined.

Lemma three_ints_initialized : initialized three_ints.
Proof. vm_compute. intuition discriminate. Qed.

Lemma full_ints_initialized : initialized full_ints.
Proof. vm_compute. intuition discriminate. Qed.

(** X7. Reserve on an initialized array.  A request that does not
    exceed the capacity returns 0 and changes nothing, whatever the
    heap does.  A larger request that the heap refuses returns 1; it
    changes nothing when the size asked for, [item_size * new_capacity]
    modulo [2^64], is not 0 or the heap keeps the block on a refused
    [realloc] of 0 bytes; when the size is 0 and the heap frees the
    block for it, the fields are unchanged but the block is released.
    A larger request that the heap grants returns 0 and sets the
    capacity to exactly the requested value (it is not added to the old
    capacity); [length] and [item_size] are kept, and when
    [item_size * new_capacity] fits [size_t] the array stays initialized
    with every stored item unchanged. *)
Theorem reserve_spec :
  forall al a n,
    initialized a -> size_t n ->
    (n <= capacity a -> cu_array_reserve al (Some a) n = Ret (0, Some a)) /\
    (capacity a < n -> grants al (wrap (item_size a * n)) = false ->
     wrap (item_size a * n) <> 0 \/ frees_on_zero al = false ->
       cu_array_reserve al (Some a) n = Ret (1, Some a)) /\
    (capacity a < n -> grants al (wrap (item_size a * n)) = false ->
     wrap (item_size a * n) = 0 -> frees_on_zero al = true ->
       cu_array_reserve al (Some a) n = Released (1, Some a)) /\
    (capacity a < n -> grants al (wrap (item_size a * n)) = true ->
       exists a',
         cu_array_reserve al (Some a) n = Ret (0, Some a') /\
         capacity a' = n /\ length a' = length a /\ item_size a' = item_size a /\
         (item_size a * n <= SIZE_MAX ->
            initialized a' /\ contents a' = contents a /\
            (forall i, 0 <= i < length a -> item_at a' i = item_at a i))).
Proof.
  intros al a n Hwf [Hn0 Hn].
  pose proof (initialized_block a Hwf) as (m & Hd & Hb & Hmax & Hisz & Hcap & Hl).
  unfold cu_array_reserve. rewrite Hd.
  destruct (capacity a =? 0) eqn:E0; [lia|].
  split; [|split; [|split]].
  - intros Hle. destruct (n <=? capacity a) eqn:E; [reflexivity | lia].
  - intros Hgt Hno Hkeep. destruct (n <=? capacity a) eqn:E; [lia|].
    unfold cu_realloc. rewrite Hno.
    destruct Hkeep as [Hnz | Hk].
    + destruct (wrap (item_size a * n) =? 0) eqn:Ez; [lia | reflexivity].
    + rewrite Hk, andb_false_r. reflexivity.
  - intros Hgt Hno Hz Hf. destruct (n <=? capacity a) eqn:E; [lia|].
    unfold cu_realloc. rewrite Hno, Hz, Hf. reflexivity.
  - intros Hgt Hyes. destruct (n <=? capacity a) eqn:E; [lia|].
    destruct (cu_realloc al m (wrap (item_size a * n))) as [tmp| |] eqn:Hre.
    2,3: (unfold cu_realloc in Hre; rewrite Hyes in Hre; discriminate).
    eexists. split; [reflexivity|]. cbn [capacity length item_size].
    split; [reflexivity|]. split; [reflexivity|]. split; [reflexivity|].
    intros Hfit.
    rewrite wrap_small in Hre by nia.
    apply realloc_inv in Hre; [|nia]. destruct Hre as [Hbt Hkeep].
    assert (Hwf' : initialized (mk_array (Some tmp) (item_size a) (length a) n)).
    { unfold initialized. cbn [data item_size length capacity]. repeat split; lia. }
    assert (Hc : contents (mk_array (Some tmp) (item_size a) (length a) n) = contents a).
    { unfold contents. cbn [data item_size length]. rewrite Hd.
      rewrite <- (take_take (item_size a * length a) (blen m) tmp) by nia.
      rewrite Hkeep by nia. reflexivity. }
    split; [exact Hwf'|]. split; [exact Hc|].
    intros i Hi. rewrite !item_at_contents by (auto; cbn [length]; lia).
    rewrite Hc. reflexivity.
Qed.

Lemma reserve_spec_witness :
  cu_array_reserve zero_freeing (Some three_ints) (2 ^ 62)
    = Released (1, Some three_ints).
Proof.
  apply (reserve_spec zero_freeing three_ints (2 ^ 62) three_ints_initialized).
  - vm_compute. intuition discriminate.
  - cbn. lia.
  - reflexivity.
  - reflexivity.
  - reflexivity.
Defined.

(** X8. Reserve does not check [item_size * new_capacity] for overflow:
    when the product exceeds [SIZE_MAX] and the heap grants the wrapped
    size, Reserve returns 0 and records the requested capacity over a
    block of only [item_size * new_capacity mod 2^64] bytes, too few
    for that capacity, so the array is no longer initialized. *)
Theorem reserve_overflow :
  forall al a n,
    initialized a -> size_t n -> capacity a < n ->
    SIZE_MAX < item_size a * n ->
    grants al (wrap (item_size a * n)) = true ->
    exists a' m',
      cu_array_reserve al (Some a) n = Ret (0, Some a') /\
      capacity a' = n /\ length a' = length a /\ data a' = Some m' /\
      blen m' = wrap (item_size a * n) /\
      blen m' < item_size a' * capacity a' /\ ~ initialized a'.
Proof.
  intros al a n Hwf [Hn0 Hn] Hgt Hover Hyes.
  pose proof (initialized_block a Hwf) as (m & Hd & Hb & Hmax & Hisz & Hcap & Hl).
  unfold cu_array_reserve. rewrite Hd.
  destruct (capacity a =? 0) eqn:E0; [lia|].
  destruct (n <=? capacity a) eqn:E; [lia|].
  destruct (cu_realloc al m (wrap (item_size a * n))) as [tmp| |] eqn:Hre.
  2,3: (unfold cu_realloc in Hre; rewrite Hyes in Hre; discriminate).
  pose proof (wrap_range (item_size a * n)) as Hr.
  apply realloc_inv in Hre; [|lia]. destruct Hre as [Hbt _].
  exists (mk_array (Some tmp) (item_size a) (length a) n), tmp.
  cbn [data item_size length capacity].
  repeat split; try assumption; try lia.
  unfold initialized. cbn [data item_size length capacity]. lia.
Qed.

Lemma reserve_overflow_witness :
  exists a' m',
    cu_array_reserve plenty (Some three_ints) (2 ^ 62) = Ret (0, Some a') /\
    capacity a' = 2 ^ 62 /\ length a' = length three_ints /\ data a' = Some m' /\
    blen m' = wrap (item_size three_ints * 2 ^ 62) /\
    blen m' < item_size a' * capacity a' /\ ~ initialized a'.
Proof.
  apply (reserve_overflow plenty three_ints (2 ^ 62) three_ints_initialized).
  - vm_compute. intuition discriminate.
  - vm_compute. reflexivity.
  - vm_compute. reflexivity.
  - reflexivity.
Defined.

(** X9. Initialize whose allocation is refused returns 1 and leaves the
    block null and the capacity 0, but it is not all-or-nothing: it has
    already stored the requested item size and reset [length].  The
    array is still in a state Initialize accepts, so a second call on a
    heap that grants the request succeeds. *)
Theorem init_failure_then_retry :
  forall al al' a isz isz',
    data a = None -> capacity a = 0 ->
    grants al (wrap (isz * CU_ARRAY_DEFAULT_SIZE)) = false ->
    grants al' (wrap (isz' * CU_ARRAY_DEFAULT_SIZE)) = true ->
    exists a1 a2,
      cu_array_init al (Some a) isz = (1, Some a1) /\
      data a1 = None /\ capacity a1 = 0 /\ item_size a1 = isz /\ length a1 = 0 /\
      cu_array_init al' (Some a1) isz' = (0, Some a2) /\
      capacity a2 = CU_ARRAY_DEFAULT_SIZE /\ length a2 = 0 /\ item_size a2 = isz'.
Proof.
  intros al al' a isz isz' Hd Hc Hno Hyes.
  unfold cu_array_init, cu_malloc. rewrite Hd, Hc, Hno. cbn [Z.eqb negb].
  eexists. eexists. split; [reflexivity|]. cbn [data capacity item_size length].
  rewrite Hyes. cbn [Z.eqb negb].
  repeat split; reflexivity.
Qed.

Lemma init_failure_then_retry_witness :
  exists a1 a2,
    cu_array_init exhausted (Some (mk_array None 7 5 0)) 4 = (1, Some a1) /\
    data a1 = None /\ capacity a1 = 0 /\ item_size a1 = 4 /\ length a1 = 0 /\
    cu_array_init plenty (Some a1) 8 = (0, Some a2) /\
    capacity a2 = CU_ARRAY_DEFAULT_SIZE /\ length a2 = 0 /\ item_size a2 = 8.
Proof.
  apply (init_failure_then_retry exhausted plenty (mk_array None 7 5 0) 4 8);
    reflexivity.
Defined.

(** X10. Initialize does not reject any item size.  The array it
    returns is initialized (its block holds [capacity] items) exactly
    when [item_size * CU_ARRAY_DEFAULT_SIZE] fits [size_t]; an item size
    of 0 gives an initialized array over an empty block, and a larger
    item size gives capacity 32 over a block of only the wrapped size. *)
Theorem init_well_formed :
  forall al a isz a',
    size_t isz -> cu_array_init al (Some a) isz = (0, Some a') ->
    capacity a' = CU_ARRAY_DEFAULT_SIZE /\ length a' = 0 /\ item_size a' = isz /\
    (exists m, data a' = Some m /\ blen m = wrap (isz * CU_ARRAY_DEFAULT_SIZE)) /\
    (initialized a' <-> isz * CU_ARRAY_DEFAULT_SIZE <= SIZE_MAX).
Proof.
  intros al a isz a' [Hi0 Hi] Hinit. unfold cu_array_init, cu_malloc in Hinit.
  destruct (data a); [discriminate|].
  destruct (negb (capacity a =? 0)); [discriminate|].
  destruct (grants al (wrap (isz * CU_ARRAY_DEFAULT_SIZE))); [|discriminate].
  inv Hinit. cbn [data item_size length capacity].
  pose proof (wrap_range (isz * CU_ARRAY_DEFAULT_SIZE)) as Hr.
  assert (Hb : blen (fresh al 0 (Z.to_nat (wrap (isz * CU_ARRAY_DEFAULT_SIZE))))
               = wrap (isz * CU_ARRAY_DEFAULT_SIZE)).
  { rewrite blen_fresh. apply Z2Nat.id. lia. }
  split; [reflexivity|]. split; [reflexivity|]. split; [reflexivity|].
  split; [eexists; split; [reflexivity | exact Hb]|].
  unfold initialized. cbn [data item_size length capacity]. rewrite Hb.
  unfold CU_ARRAY_DEFAULT_SIZE in *. split.
  - intros (E & _). rewrite <- E. lia.
  - intros Hfit. rewrite wrap_small by lia.
    unfold SIZE_MAX, SIZE_BITS in *. repeat split; lia.
Qed.

Lemma init_well_formed_witness :
  exists a',
    cu_array_init plenty (Some zero_array) (2 ^ 60) = (0, Some a') /\
    capacity a' = CU_ARRAY_DEFAULT_SIZE /\
    (initialized a' <-> 2 ^ 60 * CU_ARRAY_DEFAULT_SIZE <= SIZE_MAX).
Proof.
  eexists. split; [reflexivity|].
  assert (Hs : size_t (2 ^ 60)) by (vm_compute; intuition discriminate).
  destruct (init_well_formed plenty zero_array (2 ^ 60) _ Hs eq_refl)
    as (Hc & _ & _ & _ & Hiff).
  split; [exact Hc | exact Hiff].
Defined.

Lemma memcpy_from_ok m d src n :
  0 <= n <= blen src -> 0 <= d -> d + n <= blen m ->
  cu_memcpy_from m (Some d) (Some src) n
    = Ret (take d m ++ take n src ++ drop (d + n) m).
Proof.
  intros Hn Hd Hfit. unfold cu_memcpy_from.
  rewrite load_ok by lia. cbn [bind]. rewrite drop_zero.
  assert (Hb : blen (take n src) = n) by (apply blen_take; lia).
  rewrite store_ok by lia. rewrite Hb. reflexivity.
Qed.

Lemma append_free_slot al a src :
  initialized a -> item_size a <= blen src -> length a < capacity a ->
  exists a', cu_array_append al (Some a) (Some src) = Ret (0, Some a') /\
             capacity a' = capacity a /\ length a' = length a + 1.
Proof.
  intros Hwf Hsrc Hfree.
  pose proof (initialized_block a Hwf) as (m & Hd & Hb & Hmax & Hisz & Hcap & Hl).
  destruct (item_offset a (length a) Hwf ltac:(lia)) as [Hw Hr].
  unfold cu_array_append. rewrite Hd.
  destruct (capacity a =? 0) eqn:E0; [lia|].
  destruct (capacity a <=? length a) eqn:E; [lia|]. cbn [bind].
  rewrite Hd, Hw.
  rewrite memcpy_from_ok by nia. cbn [bind].
  rewrite wrap_small by lia. eexists. split; [reflexivity|].
  split; reflexivity.
Qed.

(** X11. When Append succeeds and when it fails, on an initialized
    array and a readable item.  While the array has a free slot Append
    returns 0 whatever the heap does, and keeps the capacity.  On a full
    array whose doubled size fits [size_t] it returns 0 with twice the
    capacity when the heap grants the doubled block, and returns 1 when
    the heap refuses it.  The refused call changes nothing when the
    items have a size other than 0, or the heap keeps the block on a
    refused [realloc] of 0 bytes; with items of size 0 on a heap that
    frees the block then, the fields are unchanged but the block is
    released. *)
Theorem append_outcome :
  forall al a src,
    initialized a -> item_size a <= blen src ->
    (length a < capacity a ->
       exists a', cu_array_append al (Some a) (Some src) = Ret (0, Some a') /\
                  capacity a' = capacity a /\ length a' = length a + 1) /\
    (length a = capacity a -> 2 * capacity a <= SIZE_MAX ->
     2 * (item_size a * capacity a) <= SIZE_MAX ->
     grants al (item_size a * (2 * capacity a)) = true ->
       exists a', cu_array_append al (Some a) (Some src) = Ret (0, Some a') /\
                  capacity a' = 2 * capacity a /\ length a' = length a + 1) /\
    (length a = capacity a -> 2 * capacity a <= SIZE_MAX ->
     2 * (item_size a * capacity a) <= SIZE_MAX ->
     grants al (item_size a * (2 * capacity a)) = false ->
     0 < item_size a \/ frees_on_zero al = false ->
       cu_array_append al (Some a) (Some src) = Ret (1, Some a)) /\
    (length a = capacity a -> 2 * capacity a <= SIZE_MAX ->
     grants al 0 = false -> item_size a = 0 -> frees_on_zero al = true ->
       cu_array_append al (Some a) (Some src) = Released (1, Some a)).
Proof.
  intros al a src Hwf Hsrc.
  pose proof (initialized_block a Hwf) as (m & Hd & Hb & Hmax & Hisz & Hcap & Hl).
  destruct (item_offset a (length a) Hwf ltac:(lia)) as [Hw Hr].
  unfold cu_array_append. rewrite Hd.
  destruct (capacity a =? 0) eqn:E0; [lia|].
  split; [|split; [|split]].
  - intros Hfree. apply (append_free_slot al a src Hwf Hsrc) in Hfree.
    unfold cu_array_append in Hfree. rewrite Hd, E0 in Hfree. exact Hfree.
  - intros Hfull H2c H2s Hyes. destruct (capacity a <=? length a) eqn:E; [|lia].
    unfold __cu_array_grow. rewrite Hd, E0.
    rewrite (wrap_small (capacity a * 2)) by lia.
    destruct (capacity a * 2 <=? length a) eqn:E2; [lia|].
    replace (item_size a * (capacity a * 2)) with (item_size a * (2 * capacity a)) by lia.
    rewrite (wrap_small (item_size a * (2 * capacity a))) by nia.
    destruct (cu_realloc al m (item_size a * (2 * capacity a))) as [tmp| |] eqn:Hre.
    2,3: (unfold cu_realloc in Hre; rewrite Hyes in Hre; discriminate).
    apply realloc_inv in Hre; [|nia]. destruct Hre as [Hbt _].
    cbn [bind data item_size length capacity]. rewrite Hw.
    rewrite memcpy_from_ok by nia. cbn [bind].
    rewrite wrap_small by lia. eexists. split; [reflexivity|].
    cbn [capacity length]. split; [lia | reflexivity].
  - intros Hfull H2c H2s Hno Hkeep. destruct (capacity a <=? length a) eqn:E; [|lia].
    unfold __cu_array_grow. rewrite Hd, E0.
    rewrite (wrap_small (capacity a * 2)) by lia.
    destruct (capacity a * 2 <=? length a) eqn:E2; [lia|].
    replace (item_size a * (capacity a * 2)) with (item_size a * (2 * capacity a)) by lia.
    rewrite (wrap_small (item_size a * (2 * capacity a))) by nia.
    unfold cu_realloc. rewrite Hno.
    destruct Hkeep as [Hpos | Hk].
    + destruct (item_size a * (2 * capacity a) =? 0) eqn:Ez; [nia | reflexivity].
    + rewrite Hk, andb_false_r. reflexivity.
  - intros Hfull H2c Hno Hz Hf. destruct (capacity a <=? length a) eqn:E; [|lia].
    unfold __cu_array_grow. rewrite Hd, E0.
    rewrite (wrap_small (capacity a * 2)) by lia.
    destruct (capacity a * 2 <=? length a) eqn:E2; [lia|].
    rewrite Hz. cbn [Z.mul]. rewrite (wrap_small 0) by (unfold SIZE_MAX, SIZE_BITS; lia).
    unfold cu_realloc. rewrite Hno, Hf. reflexivity.
Qed.

Lemma full_empty_items_initialized : initialized full_empty_items.
Proof. vm_compute. intuition discriminate. Qed.

Lemma append_outcome_witness :
  cu_array_append zero_freeing (Some full_empty_items) (Some [])
    = Released (1, Some full_empty_items).
Proof.
  apply (append_outcome zero_freeing full_empty_items [] full_empty_items_initialized).
  - cbn. lia.
  - reflexivity.
  - vm_compute. discriminate.
  - reflexivity.
  - reflexivity.
  - reflexivity.
Defined.

(** X12. Clear followed by Append.  Clear on an initialized array
    leaves an initialized array with the same block and capacity and no
    items: At is null for every position.  The next Append of a readable
    item then returns 0 without asking the heap for anything, keeps the
    capacity, and makes the appended item the one at position 0. *)
Theorem clear_then_append :
  forall al a src,
    initialized a -> item_size a <= blen src ->
    exists a1 a2,
      cu_array_clear (Some a) = (0, Some a1) /\
      initialized a1 /\ data a1 = data a /\ capacity a1 = capacity a /\
      (forall pos, 0 <= pos -> cu_array_at (Some a1) pos = None) /\
      cu_array_append al (Some a1) (Some src) = Ret (0, Some a2) /\
      length a2 = 1 /\ capacity a2 = capacity a /\
      item_at a2 0 = Some (take (item_size a) src).
Proof.
  intros al a src Hwf Hsrc.
  pose proof (initialized_block a Hwf) as (m & Hd & Hb & Hmax & Hisz & Hcap & Hl).
  set (a1 := mk_array (data a) (item_size a) 0 (capacity a)).
  assert (Hwf1 : initialized a1).
  { unfold initialized, a1. cbn [data item_size length capacity]. rewrite Hd.
    repeat split; lia. }
  destruct (append_free_slot al a1 src Hwf1 Hsrc) as (a2 & Happ & Hc2 & Hl2).
  { cbn. lia. }
  exists a1, a2. split; [reflexivity|]. split; [exact Hwf1|].
  split; [reflexivity|]. split; [reflexivity|]. split.
  - intros pos Hpos. unfold cu_array_at, a1. cbn [data capacity length]. rewrite Hd.
    destruct (capacity a =? 0); [reflexivity|].
    destruct (0 <=? pos) eqn:E; [reflexivity | lia].
  - split; [exact Happ|]. split; [exact Hl2|]. split; [exact Hc2|].
    destruct (append_items al a1 (Some src) a2 Hwf1 Happ)
      as (src' & Es & _ & _ & _ & _ & Hat & _).
    inv Es. exact Hat.
Qed.

Lemma clear_then_append_witness :
  exists a1 a2,
    cu_array_clear (Some three_ints) = (0, Some a1) /\
    initialized a1 /\ data a1 = data three_ints /\ capacity a1 = capacity three_ints /\
    (forall pos, 0 <= pos -> cu_array_at (Some a1) pos = None) /\
    cu_array_append exhausted (Some a1) (Some (int_bytes 9)) = Ret (0, Some a2) /\
    length a2 = 1 /\ capacity a2 = capacity three_ints /\
    item_at a2 0 = Some (take (item_size three_ints) (int_bytes 9)).
Proof.
  apply (clear_then_append exhausted three_ints (int_bytes 9) three_ints_initialized).
  cbn. lia.
Defined.

Lemma insert_items_witness :
  exists a',
    cu_array_insert plenty (Some three_ints) (Some (int_bytes 9)) 1 = Ret (0, Some a') /\
    length a' = length three_ints + 1 /\
    item_at a' 1 = Some (take (item_size three_ints) (int_bytes 9)).
Proof.
  eexists. split; [vm_compute; reflexivity|].
  destruct (insert_items plenty three_ints (int_bytes 9) 1 _ three_ints_initialized
              ltac:(lia) ltac:(cbn; lia) eq_refl) as (Hl & Hat & _).
  split; [exact Hl | exact Hat].
Defined.

Lemma remove_items_witness :
  exists a',
    cu_array_remove_at (Some three_ints) 0 = Ret (0, Some a') /\
    length a' = length three_ints - 1.
Proof.
  destruct (remove_items three_ints 0 three_ints_initialized ltac:(lia)
              ltac:(cbn; lia) ltac:(cbn; lia)) as (a' & Hrun & Hl & _).
  exists a'. split; [exact Hrun | exact Hl].
Defined.

Lemma insert_near_end_never_succeeds_witness :
  cu_array_insert plenty (Some three_ints) (Some (int_bytes 9)) 3
    <> Ret (0, Some three_ints).
Proof.
  apply (insert_near_end_never_succeeds plenty three_ints (int_bytes 9) 3
           (Some three_ints) three_ints_initialized); cbn; lia.
Defined.

(** X15. Insert followed by RemoveAt at the same position gives the
    array back: when Insert at [pos] (with [pos + 1 < length]) returns 0
    and has not filled the array to its capacity, RemoveAt at [pos]
    returns 0 and leaves the length and every stored item as they were
    before the Insert. *)
Theorem insert_then_remove :
  forall al a src pos a1,
    initialized a -> 0 <= pos -> pos + 1 < length a ->
    length a + 1 <> capacity a ->
    cu_array_insert al (Some a) (Some src) pos = Ret (0, Some a1) ->
    exists a2,
      cu_array_remove_at (Some a1) pos = Ret (0, Some a2) /\
      length a2 = length a /\ item_size a2 = item_size a /\
      contents a2 = contents a /\
      (forall i, 0 <= i < length a -> item_at a2 i = item_at a i).
Proof.
  intros al a src pos a1 Hwf Hpos Hnext Hnotfull Hins.
  destruct (insert_shifts al a src pos a1 Hwf Hpos Hnext Hins)
    as (Hsrc & Hwf1 & Ei & El & Hc1).
  pose proof (initialized_block a Hwf) as (m & Hd & Hb & Hmax & Hisz & Hcap & Hl).
  assert (Hroom1 : length a1 < capacity a1).
  { apply insert_cases in Hins.
    destruct Hins as [[E _] | [_ (s & a0 & m0 & m1 & m2 & _ & _ & Hroom & _ & _ & _ & E)]];
      [discriminate|].
    inv E. cbn [length capacity] in *.
    pose proof (room_for_one_fields _ _ _ Hroom) as (_ & El0 & Hcap0 & Hlt).
    destruct Hcap0 as [E | [Hfull E]].
    - lia.
    - rewrite E in *. rewrite (wrap_double_gt (capacity a)) in * by lia. lia. }
  destruct (remove_shifts a1 pos Hwf1 Hpos ltac:(lia) Hroom1)
    as (a2 & Hrm & Hwf2 & Ei2 & El2 & Hc2).
  exists a2. split; [exact Hrm|]. split; [lia|]. split; [congruence|].
  pose proof (blen_contents a Hwf) as Hbc.
  assert (Hc : contents a2 = contents a).
  { rewrite Hc2, Hc1, Ei.
    assert (HbA : blen (take (item_size a * pos) (contents a)) = item_size a * pos)
      by (apply blen_take; nia).
    assert (HbS : blen (take (item_size a) src) = item_size a) by (apply blen_take; lia).
    rewrite take_app_le by nia. rewrite take_take by nia.
    rewrite drop_app_ge by nia. rewrite HbA.
    rewrite drop_app_ge by nia. rewrite HbS.
    replace (item_size a * (pos + 1) - item_size a * pos - item_size a) with 0 by lia.
    rewrite drop_zero. apply take_drop. }
  split; [exact Hc|].
  intros i Hi. rewrite !item_at_contents by (auto; lia).
  rewrite Hc, Ei2, Ei. reflexivity.
Qed.

Lemma insert_then_remove_witness :
  exists a1 a2,
    cu_array_insert plenty (Some three_ints) (Some (int_bytes 9)) 1 = Ret (0, Some a1) /\
    cu_array_remove_at (Some a1) 1 = Ret (0, Some a2) /\
    contents a2 = contents three_ints.
Proof.
  eexists. 
  destruct (insert_then_remove plenty three_ints (int_bytes 9) 1 _
              three_ints_initialized ltac:(lia) ltac:(cbn; lia)
              ltac:(cbn; lia) eq_refl) as (a2 & Hrm & _ & _ & Hc & _).
  exists a2. split; [reflexivity|]. split; [exact Hrm | exact Hc].
Defined.

(** X16. RemoveAt at a valid position of an initialized array goes
    wrong in two cases.  For the last item the source pointer is null.
    For any other item of an array that is filled to its capacity (and
    has items of non-zero size) the move reads one item past the end of
    the block. *)
Theorem remove_at_faults :
  forall a pos,
    initialized a -> 0 <= pos < length a ->
    (pos = length a - 1 -> cu_array_remove_at (Some a) pos = Fault NullPointer) /\
    (pos + 1 < length a -> length a = capacity a -> 0 < item_size a ->
       cu_array_remove_at (Some a) pos = Fault OutOfBounds).
Proof.
  intros a pos Hwf Hpos.
  pose proof (initialized_block a Hwf) as (m & Hd & Hb & Hmax & Hisz & Hcap & Hl).
  assert (Hw1 : wrap (pos + 1) = pos + 1) by (apply wrap_small; lia).
  unfold cu_array_remove_at. rewrite Hd.
  destruct (capacity a =? 0) eqn:E0; [lia|].
  destruct (length a <=? pos) eqn:E1; [lia|]. cbn [orb].
  rewrite Hw1, (at_inside a pos Hwf Hpos).
  split.
  - intros Hlast. unfold cu_array_at. rewrite Hd, E0.
    destruct (length a <=? pos + 1) eqn:E2; [|lia]. reflexivity.
  - intros Hnext Hfull Hsz.
    rewrite (at_inside a (pos + 1) Hwf ltac:(lia)).
    rewrite (wrap_small (length a - pos)) by lia.
    rewrite (wrap_small ((length a - pos) * item_size a)) by nia.
    unfold cu_memmove, load.
    destruct (0 <=? item_size a * (pos + 1)); [|reflexivity].
    destruct (0 <=? (length a - pos) * item_size a); [|reflexivity].
    destruct (item_size a * (pos + 1) + (length a - pos) * item_size a <=? blen m) eqn:E3;
      [nia | reflexivity].
Qed.

Lemma remove_at_faults_witness :
  cu_array_remove_at (Some full_ints) 5 = Fault OutOfBounds.
Proof.
  apply (remove_at_faults full_ints 5 full_ints_initialized); cbn; lia.
Defined.

(** X18. The capacity after Extend.  When the items fit the capacity,
    a successful Extend keeps it.  When they do not, Extend reserves
    exactly [length + count] slots (it does not double the capacity),
    so it leaves the array filled to its capacity. *)
Theorem extend_capacity :
  forall al a src k a',
    initialized a -> 0 <= k -> length a + k <= SIZE_MAX ->
    cu_array_extend al (Some a) (Some src) k = Ret (0, Some a') ->
    length a' = length a + k /\
    (length a + k <= capacity a -> capacity a' = capacity a) /\
    (capacity a < length a + k ->
       capacity a' = length a + k /\ length a' = capacity a').
Proof.
  intros al a src k a' Hwf Hk Hfit Hext.
  pose proof (initialized_block a Hwf) as (m & Hd & Hb & Hmax & Hisz & Hcap & Hl).
  assert (Hw : wrap (length a + k) = length a + k) by (apply wrap_small; lia).
  apply extend_cases in Hext.
  destruct Hext as [[E _] | [_ (s & a1 & m1 & m' & _ & Hres & _ & _ & E)]]; [discriminate|].
  inv E. cbn [length capacity]. rewrite Hw in Hres.
  apply reserve_cases in Hres.
  destruct Hres as [[E _] | [(_ & E & Hle) | (_ & m0 & tmp & _ & _ & Hlt & _ & E)]];
    [discriminate | |]; inv E; cbn [length capacity]; rewrite Hw;
    repeat split; lia.
Qed.

Lemma extend_capacity_witness :
  exists a',
    cu_array_extend plenty (Some three_ints)
                    (Some (ints (map Z.of_nat (seq 0 40)))) 40 = Ret (0, Some a') /\
    capacity a' = length three_ints + 40 /\ length a' = capacity a'.
Proof.
  eexists. split; [vm_compute; reflexivity|].
  apply (extend_capacity plenty three_ints (ints (map Z.of_nat (seq 0 40))) 40 _
           three_ints_initialized).
  - lia.
  - vm_compute. intuition discriminate.
  - vm_compute. reflexivity.
  - cbn. lia.
Defined.

(** X19. [cu_compare_int] on two [int] values whose difference fits
    [int] returns that difference, so its sign orders them; on values
    in the range from [-2^30] to [2^30 - 1] it behaves as a total
    order. *)
Theorem compare_int_order :
  (forall a b,
      - 2 ^ 31 <= int_at a - int_at b < 2 ^ 31 ->
      cu_compare_int a b = int_at a - int_at b) /\
  (forall a b c,
      - 2 ^ 30 <= int_at a < 2 ^ 30 -> - 2 ^ 30 <= int_at b < 2 ^ 30 ->
      - 2 ^ 30 <= int_at c < 2 ^ 30 ->
      cu_compare_int a a = 0 /\
      (cu_compare_int a b < 0 <-> int_at a < int_at b) /\
      (cu_compare_int a b < 0 <-> 0 < cu_compare_int b a) /\
      (cu_compare_int a b <= 0 -> cu_compare_int b c <= 0 -> cu_compare_int a c <= 0)).
Proof.
  assert (Hexact : forall a b,
      - 2 ^ 31 <= int_at a - int_at b < 2 ^ 31 ->
      cu_compare_int a b = int_at a - int_at b).
  { intros a b H. unfold cu_compare_int, to_int.
    rewrite Z.mod_small by lia. lia. }
  split; [exact Hexact|].
  intros a b c Ha Hb Hc.
  rewrite (Hexact a a), (Hexact a b), (Hexact b a), (Hexact b c), (Hexact a c) by lia.
  repeat split; lia.
Qed.

Lemma compare_int_order_witness :
  cu_compare_int (int_bytes 3) (int_bytes 7) = int_at (int_bytes 3) - int_at (int_bytes 7).
Proof.
  apply (proj1 compare_int_order). vm_compute. split; [discriminate | reflexivity].
Defined.

(** ** Sort on an array that is already in order *)

Lemma item_at_nth_item a m i :
  initialized a -> data a = Some m -> 0 <= i < length a ->
  item_at a i = Some (nth_item m 0 (item_size a) i).
Proof.
  intros Hwf Hd Hi.
  destruct (initialized_region a m Hwf Hd) as (Hreg & _ & _).
  pose proof (initialized_block a Hwf) as (m0 & Hd0 & Hb & Hmax & Hisz & Hcap & Hl).
  destruct (load_item m 0 (item_size a) (length a) i Hreg Hi) as [Hload Hw].
  unfold item_at, cu_array_at. rewrite Hd.
  destruct (capacity a =? 0) eqn:E0; [lia|].
  destruct (length a <=? i) eqn:E1; [lia|]. cbn [orb].
  cbn [Z.add] in Hload. rewrite Hload. reflexivity.
Qed.

Section QsortIncreasing.

Variable compare : bytes -> bytes -> Z.
Hypothesis compare_irrefl : forall x, ~ compare x x < 0.

Variable isz : Z.

(** With the items in strictly increasing order both scans stop at the
    pivot item, nothing is exchanged, and the two recursive calls get
    the items before the pivot and the items from the pivot on. *)
Lemma qsort_internal_increasing :
  forall fuel m dat len,
    region m dat isz len -> len + 2 <= Z.of_nat fuel ->
    (forall i j, 0 <= i -> i < j -> j < len ->
       compare (nth_item m dat isz i) (nth_item m dat isz j) < 0) ->
    __cu_array_qsort_internal compare fuel m dat isz len = Ret m.
Proof.
  intros fuel.
  induction fuel as [|fuel IH]; intros m dat len Hreg Hfuel Hinc.
  - destruct Hreg as (_ & _ & Hlen & _). lia.
  - cbn [__cu_array_qsort_internal].
    destruct (len <? 2) eqn:Hsmall; [reflexivity|].
    pose proof Hreg as (Hdat & Hisz & Hlen & Hfit & Hmax).
    assert (Hp : 1 <= len / 2 <= len - 1).
    { split.
      - apply Z.div_le_lower_bound; lia.
      - assert (len / 2 < len) by (apply Z.div_lt_upper_bound; lia). lia. }
    set (p := len / 2) in *.
    rewrite (wrap_small (len - 1)) by lia.
    destruct fuel as [|fuel']; [lia|]. cbn [partition].
    destruct (scan_up_stops compare dat isz len m p p Hreg ltac:(lia) ltac:(lia)
                (compare_irrefl _) (S fuel') 0 ltac:(lia) ltac:(lia))
      as (i' & -> & Hi' & Hnot).
    assert (i' = p).
    { destruct (Z.eq_dec i' p) as [|Hne]; [assumption|].
      exfalso. apply Hnot, Hinc; lia. }
    subst i'. cbn [bind].
    destruct (scan_down_stops compare dat isz len m p p Hreg ltac:(lia) ltac:(lia)
                (compare_irrefl _) (S fuel') (len - 1) ltac:(lia) ltac:(lia))
      as (j' & -> & Hj' & Hnot').
    assert (j' = p).
    { destruct (Z.eq_dec j' p) as [|Hne]; [assumption|].
      exfalso. apply Hnot', Hinc; lia. }
    subst j'. cbn [bind]. rewrite Z.leb_refl. cbn [bind].
    rewrite IH; [| unfold region; repeat split; try lia; nia | lia
                 | intros i j ? ? ?; apply Hinc; lia].
    cbn [bind].
    assert (Hw : wrap (isz * p) = isz * p) by (apply wrap_small; nia).
    rewrite Hw, (wrap_small (len - p)) by lia.
    apply IH; [unfold region; repeat split; try lia; nia | lia |].
    intros i j ? ? ?. unfold nth_item.
    replace (dat + isz * p + isz * i) with (dat + isz * (p + i)) by ring.
    replace (dat + isz * p + isz * j) with (dat + isz * (p + j)) by ring.
    apply Hinc; lia.
Qed.

End QsortIncreasing.

(** X20. Sort on an initialized array whose items are in strictly
    increasing order (the comparator is negative on every pair of an
    earlier and a later item, and never negative on an item with
    itself), with fuel [length + 2] or more: it returns 0, exchanges
    nothing and leaves the array exactly as it was, whatever the item
    size. *)
Theorem qsort_keeps_increasing :
  forall compare a fuel,
    initialized a ->
    (forall x, ~ compare x x < 0) ->
    (forall i j x y, 0 <= i -> i < j -> j < length a ->
       item_at a i = Some x -> item_at a j = Some y -> compare x y < 0) ->
    length a + 2 <= Z.of_nat fuel ->
    cu_array_qsort compare fuel (Some a) = Ret (0, Some a).
Proof.
  intros compare a fuel Hwf Hirr Hinc Hfuel.
  pose proof (initialized_block a Hwf) as (m & Hd & Hb & Hmax & Hisz & Hcap & Hl).
  destruct (initialized_region a m Hwf Hd) as (Hreg & _ & _).
  unfold cu_array_qsort. rewrite Hd.
  destruct (capacity a =? 0) eqn:E0; [lia|].
  rewrite (qsort_internal_increasing compare Hirr (item_size a) fuel m 0 (length a)
             Hreg Hfuel).
  - cbn [bind]. destruct a as [d s l c]. cbn [data item_size length capacity] in *.
    rewrite Hd. reflexivity.
  - intros i j Hi Hij Hj.
    apply (Hinc i j); try assumption.
    + apply item_at_nth_item; auto; lia.
    + apply item_at_nth_item; auto; lia.
Qed.

Lemma qsort_keeps_increasing_witness :
  cu_array_qsort compare_unsigned 5 (Some three_ints) = Ret (0, Some three_ints).
Proof.
  apply (qsort_keeps_increasing compare_unsigned three_ints 5 three_ints_initialized).
  - intros x. unfold compare_unsigned. lia.
  - cbn [length three_ints]. intros i j x y Hi Hij Hj.
    assert (Hc : (i = 0 /\ j = 1) \/ (i = 0 /\ j = 2) \/ (i = 1 /\ j = 2)) by lia.
    destruct Hc as [[-> ->] | [[-> ->] | [-> ->]]];
      vm_compute; intros Hx Hy; inversion Hx; inversion Hy; reflexivity.
  - cbn. lia.
Defined.
